(** * shellbot-slack: the event dispatch pipeline of [event_server.py]

    A shallow embedding of the dedup ledger ([History]), the command parser
    ([parse]), the executor ([execute]), the notifier ([post]) and the
    dispatcher ([write]), followed by the properties of the specification
    that were checked against them.

    Conventions of the embedding:
    - a Python [str] is the list of its Unicode code points ([str]);
    - a Python function that may raise returns [exn + A]; a function with
      side effects is a computation [M A] over the [World], which keeps the
      mutations made before an exception, as Python does;
    - the class attributes of [History] are fields of the [World];
    - the outside world (configuration file, spawned processes, the webhook)
      is an [Env] record of oracles, and every call that reaches it leaves an
      [effect] in the world's trace;
    - calls to [logger] are not modelled. *)

From Stdlib Require Import NArith Ascii String.
From stdpp Require Import gmap strings list.

Set Default Proof Using "Type".
#[local] Set Warnings "-register-all,-clear-no-such-hyp".

(** ** Python values *)

(** A character is a Unicode code point; a [str] is a sequence of them. *)
Definition char := N.
Definition str := list char.

(** [py "abc"] is the Python string with the same (ASCII) characters. *)
Definition py (s : string) : str := N_of_ascii <$> list_ascii_of_string s.

(** The exceptions of the model, all of them subclasses of [Exception];
    [ValueError] and [PyException] carry their message. *)
Inductive exn :=
  | AssertionError
  | KeyError
  | IndexError
  | TypeError
  | AttributeError
  | ValueError (msg : string)
  | PyException (msg : str)
  | OSError
  | UnicodeDecodeError
  | RequestException.

(** A value read from the TOML configuration: a string, an array of
    strings, or Python's [None]. *)
Inductive value :=
  | VNone
  | VStr (s : str)
  | VArr (l : list str).

(** The JSON document handed to [requests.post]. *)
Inductive jvalue :=
  | JNull
  | JStr (s : str)
  | JBool (b : bool)
  | JArr (l : list jvalue)
  | JObj (m : gmap string jvalue).

Definition to_json (v : value) : jvalue :=
  match v with
  | VNone => JNull
  | VStr s => JStr s
  | VArr l => JArr (JStr <$> l)
  end.

(** What [subprocess.run(..., capture_output=True)] returns. *)
Record CompletedProcess := {
  returncode : Z;
  stdout : list Byte.byte;
  stderr : list Byte.byte
}.

(** ** The world *)

(** Calls that leave the process. *)
Inductive effect :=
  | Spawn (command : list str)
  | HttpPost (url : value) (json : gmap string jvalue).

(** The class attributes [History.items] and [History.items_set], and the
    effects performed so far. *)
Record World := {
  items : list str;
  items_set : gset str;
  trace : list effect
}.

Definition set_items (f : list str → list str) (w : World) : World :=
  {| items := f (items w); items_set := items_set w; trace := trace w |}.
Definition set_items_set (f : gset str → gset str) (w : World) : World :=
  {| items := items w; items_set := f (items_set w); trace := trace w |}.
Definition emit (e : effect) (w : World) : World :=
  {| items := items w; items_set := items_set w; trace := trace w ++ [e] |}.

(** The world at start-up: [items = []], [items_set = set()]. *)
Definition startup : World := {| items := []; items_set := ∅; trace := [] |}.

(** ** Computations that mutate the world and may raise *)

Definition M (A : Type) : Type := World → (exn + A) * World.

Definition ret {A} (x : A) : M A := λ w, (inr x, w).
Definition raise {A} (e : exn) : M A := λ w, (inl e, w).
Definition bind {A B} (m : M A) (k : A → M B) : M B :=
  λ w, match m w with
       | (inr x, w') => k x w'
       | (inl e, w') => (inl e, w')
       end.
(** A pure function that may raise, called from a computation. *)
Definition lift {A} (r : exn + A) : M A := λ w, (r, w).
Definition get {A} (f : World → A) : M A := λ w, (inr (f w), w).
Definition modify (f : World → World) : M unit := λ w, (inr tt, f w).
(** [try: m / except Exception: h]. *)
Definition try_except {A} (m : M A) (h : M A) : M A :=
  λ w, match m w with
       | (inr x, w') => (inr x, w')
       | (inl _, w') => h w'
       end.

Notation "'do' x <- m ; k" := (bind m (λ x, k))
  (at level 20, x name, m at level 100, k at level 200).
Notation "m ;; k" := (bind m (λ _, k))
  (at level 100, k at level 200, right associativity).

(** ** [class History] *)

Module History.

Definition hist_size : nat := 100.

(** [return item in cls.items_set] *)
Definition contains (item : str) : M bool :=
  get (λ w, bool_decide (item ∈ items_set w)).

(** [set.remove]: raises [KeyError] when the element is missing. *)
Definition set_remove (x : str) : M unit :=
  do present <- get (λ w, bool_decide (x ∈ items_set w));
  if present then modify (set_items_set (λ s, s ∖ {[x]}))
  else raise KeyError.

(** [cls.items[0]]: raises [IndexError] on the empty list. *)
Definition items_0 : M str :=
  do l <- get items;
  match l with
  | x :: _ => ret x
  | [] => raise IndexError
  end.

Definition add (item : str) : M unit :=
  modify (set_items (λ l, l ++ [item]));;
  modify (set_items_set (λ s, s ∪ {[item]}));;
  do n <- get (λ w, length (items w));
  if decide (hist_size < n) then
    do remove_item <- items_0;
    set_remove remove_item;;
    modify (set_items (drop 1))
  else ret tt.

End History.

(** ** The library functions [parse] calls *)

(** *** [re.sub] for the two patterns of [parse] *)

Module re.

(** The pieces of a pattern: a literal character [c], and [[^c]*]. *)
Inductive atom :=
  | Lit (c : char)
  | NotLitStar (c : char).

(** Match the pattern at the head of [s]; the star is greedy and
    backtracks. Returns the text that follows the match. *)
Fixpoint match_here (p : list atom) (s : str) {struct p} : option str :=
  match p with
  | [] => Some s
  | Lit c :: p' =>
      match s with
      | x :: s' => if decide (x = c) then match_here p' s' else None
      | [] => None
      end
  | NotLitStar c :: p' =>
      (fix star (s : str) : option str :=
         match s with
         | x :: s' =>
             if decide (x = c) then match_here p' s
             else match star s' with
                  | Some r => Some r
                  | None => match_here p' s
                  end
         | [] => match_here p' s
         end) s
  end.

(** [re.sub("^" + p, repl, text)]: without [re.MULTILINE] the pattern can
    match at position 0 only, so at most one match is replaced. *)
Definition sub_bol (p : list atom) (repl text : str) : str :=
  match match_here p text with
  | Some rest => repl ++ rest
  | None => text
  end.

(** [re.sub(c, repl, text)] for a pattern that is the one character [c]. *)
Fixpoint sub_char (c : char) (repl text : str) : str :=
  match text with
  | [] => []
  | x :: text' =>
      if decide (x = c) then repl ++ sub_char c repl text'
      else x :: sub_char c repl text'
  end.

End re.

(** *** [str.strip] *)

(** The characters [str.strip()] removes (CPython's [Py_UNICODE_ISSPACE]). *)
Definition isspace (c : char) : bool :=
  ((9 <=? c) && (c <=? 13) || (28 <=? c) && (c <=? 32)
   || (c =? 133) || (c =? 160) || (c =? 5760)
   || (8192 <=? c) && (c <=? 8202)
   || (c =? 8232) || (c =? 8233) || (c =? 8239) || (c =? 8287)
   || (c =? 12288))%N.

Fixpoint lstrip (s : str) : str :=
  match s with
  | c :: s' => if isspace c then lstrip s' else s
  | [] => []
  end.
Definition rstrip (s : str) : str := reverse (lstrip (reverse s)).
Definition strip (s : str) : str := rstrip (lstrip s).

(** *** [shlex.split] *)

(** CPython's [shlex] lexer as [shlex.split(s)] configures it: [posix] and
    [whitespace_split] set, no [commenters], no [punctuation_chars]. With
    these settings the branches for comments and punctuation are dead and the
    lexer never pushes a character back, so it reads its input left to
    right. *)
Module shlex.

Definition whitespace : str := [32; 9; 13; 10]%N.
Definition quotes : str := [39; 34]%N.
Definition escape : str := [92]%N.
Definition escapedquotes : str := [34]%N.
(** [a-zA-Z0-9_] and the Latin-1 letters of the posix mode. *)
Definition wordchar (c : char) : bool :=
  ((97 <=? c) && (c <=? 122) || (65 <=? c) && (c <=? 90)
   || (48 <=? c) && (c <=? 57) || (c =? 95)
   || (223 <=? c) && (c <=? 246) || (248 <=? c) && (c <=? 255)
   || (192 <=? c) && (c <=? 214) || (216 <=? c) && (c <=? 222))%N.

(** [self.state]: [' '], ['a'], a quote character or the escape
    character. *)
Inductive lstate :=
  | in_space
  | in_word
  | in_quote (q : char)
  | in_escape (e : char).

(** [self.state], [self.token] and the locals of [read_token]. *)
Record lexer := Lexer {
  state : lstate;
  escapedstate : lstate;
  quoted : bool;
  token : str
}.

(** The lexer at the start of a call of [read_token]. *)
Definition fresh (st : lstate) : lexer := Lexer st in_space false [].

(** [self.token or (self.posix and quoted)] *)
Definition emits (lx : lexer) : bool :=
  negb (bool_decide (token lx = [])) || quoted lx.

(** One turn of the loop of [read_token] on the character [c]; the
    boolean tells whether the loop breaks. *)
Definition step (lx : lexer) (c : char) : lexer * bool :=
  let '(Lexer st esc q tok) := lx in
  match st with
  | in_space =>
      if bool_decide (c ∈ whitespace) then (lx, emits lx)
      else if bool_decide (c ∈ escape) then (Lexer (in_escape c) in_word q tok, false)
      else if wordchar c then (Lexer in_word esc q [c], false)
      else if bool_decide (c ∈ quotes) then (Lexer (in_quote c) esc q tok, false)
      else (Lexer in_word esc q [c], false)
  | in_quote qc =>
      if bool_decide (c = qc) then (Lexer in_word esc true tok, false)
      else if bool_decide (c ∈ escape) && bool_decide (qc ∈ escapedquotes)
      then (Lexer (in_escape c) (in_quote qc) true tok, false)
      else (Lexer (in_quote qc) esc true (tok ++ [c]), false)
  | in_escape e =>
      let tok :=
        match esc with
        | in_quote qc =>
            if negb (bool_decide (c = e)) && negb (bool_decide (c = qc))
            then tok ++ [e] else tok
        | _ => tok
        end in
      (Lexer esc esc q (tok ++ [c]), false)
  | in_word =>
      if bool_decide (c ∈ whitespace) then (Lexer in_space esc q tok, emits lx)
      else if bool_decide (c ∈ quotes) then (Lexer (in_quote c) esc q tok, false)
      else if bool_decide (c ∈ escape) then (Lexer (in_escape c) in_word q tok, false)
      else (Lexer in_word esc q (tok ++ [c]), false)
  end.

(** What [read_token] returns after the loop: the token, or [None] for an
    empty token that was not quoted. *)
Definition result (lx : lexer) : option str :=
  if negb (quoted lx) && bool_decide (token lx = []) then None
  else Some (token lx).

(** [list(lex)]: [read_token] is called until it returns [None]. Each call
    starts with fresh locals and an empty token and keeps [self.state]. At
    the end of the input an open quote or a pending escape raises. *)
Fixpoint tokens (lx : lexer) (input : str) : exn + list str :=
  match input with
  | [] =>
      match state lx with
      | in_quote _ => inl (ValueError "No closing quotation")
      | in_escape _ => inl (ValueError "No escaped character")
      | in_space | in_word =>
          inr (match result lx with Some t => [t] | None => [] end)
      end
  | c :: rest =>
      let '(lx', brk) := step lx c in
      if brk : bool then
        match result lx' with
        | None => inr []
        | Some t =>
            match tokens (fresh (state lx')) rest with
            | inr ts => inr (t :: ts)
            | inl e => inl e
            end
        end
      else tokens lx' rest
  end.

Definition split (s : str) : exn + list str := tokens (fresh in_space) s.

End shlex.

(** ** [parse] *)

(** The pattern [<@[^>]*>] (after the [^]). *)
Definition mention : list re.atom :=
  [re.Lit 60; re.Lit 64; re.NotLitStar 62; re.Lit 62]%N.

(** U+3000, the full-width space. *)
Definition fullwidth_space : char := 12288%N.

Definition parse (text : str) : exn + list str :=
  let text := re.sub_bol mention [] text in
  let text := re.sub_char fullwidth_space (py " ") text in
  let text := strip text in
  let commands := shlex.split text in
  commands.

(** ** The outside world *)

Record Env := {
  (** [config.conf], the parsed [conf.toml]. *)
  conf : gmap string (gmap string value);
  (** [subprocess.run(command, capture_output=True)]. *)
  subprocess_run : list str → exn + CompletedProcess;
  (** [bytes.decode()]. *)
  bytes_decode : list Byte.byte → exn + str;
  (** [requests.post(url, json=data)]: the exception it raises, if any. *)
  requests_post : value → gmap string jvalue → option exn
}.

(** ** [class Config] *)

Module Config.

Definition get (conf : gmap string (gmap string value))
    (section prop : string) (required : bool) (default_value : value)
    : exn + value :=
  (* val = self.conf.get(section, {}).get(prop, None) *)
  let val := default VNone (default ∅ (conf !! section) !! prop) in
  match val with
  | VNone =>
      if required then
        inl (PyException (py ("Not found " ++ section ++ "." ++ prop
                              ++ " in config.")))
      else inr default_value
  | _ => inr val
  end.

End Config.

(** ** Operators on configuration values *)

(** [x in s] on strings: [x] occurs in [s] as a substring. *)
Fixpoint is_infix (x s : str) : bool :=
  bool_decide (x `prefix_of` s)
  || match s with
     | [] => false
     | _ :: s' => is_infix x s'
     end.

(** [x in v]: membership in a list, substring test on a string. *)
Definition py_in (x : str) (v : value) : exn + bool :=
  match v with
  | VArr l => inr (bool_decide (x ∈ l))
  | VStr s => inr (is_infix x s)
  | VNone => inl TypeError
  end.

(** [v.startswith(p)]: only a string has the method. *)
Definition startswith (v : value) (p : str) : exn + bool :=
  match v with
  | VStr s => inr (bool_decide (p `prefix_of` s))
  | _ => inl AttributeError
  end.

(** [p + v] for a string [p]. *)
Definition str_add (p : str) (v : value) : exn + value :=
  match v with
  | VStr s => inr (VStr (p ++ s))
  | _ => inl TypeError
  end.

(** [l[0]] *)
Definition index_0 {A} (l : list A) : exn + A :=
  match l with
  | x :: _ => inr x
  | [] => inl IndexError
  end.

(** ** [class Result] *)

Record Result := {
  is_success : bool;
  is_failed : bool;
  data : str
}.

Module Result.
Definition success (data : str) : Result :=
  {| is_success := true; is_failed := false; data := data |}.
Definition failed (data : str) : Result :=
  {| is_success := false; is_failed := true; data := data |}.
End Result.

(** ** [execute] *)

Definition execute (env : Env) (command : list str) : M Result :=
  (* assert len(command) > 0 *)
  (if decide (0 < length command) then ret tt else raise AssertionError);;
  do allows <- lift (Config.get (conf env) "command" "allows" true VNone);
  do command_0 <- lift (index_0 command);
  do allowed <- lift (py_in command_0 allows);
  if negb allowed then
    ret (Result.failed (py "Error: " ++ command_0 ++ py " is not allowed"))
  else
    try_except
      (modify (emit (Spawn command));;
       do proc <- lift (subprocess_run env command);
       do out <- lift (bytes_decode env (stdout proc));
       ret (Result.success out))
      (ret (Result.failed (py "Error: Something wrong?"))).

(** ** [post] *)

Definition post (env : Env) (result : Result) : M unit :=
  do url <- lift (Config.get (conf env) "slack" "webhook" true VNone);
  do channel <- lift (Config.get (conf env) "slack" "channel" true VNone);
  do has_hash <- lift (startswith channel (py "#"));
  do channel <- lift (if negb has_hash then str_add (py "#") channel
                      else inr channel);
  let color := if is_success result then py "#202020" else py "#f02020" in
  do username <- lift (Config.get (conf env) "slack" "username" true VNone);
  let data : gmap string jvalue :=
    {[ "username" := to_json username;
       "channel" := to_json channel;
       "color" := JStr color;
       "fields" := JArr [JObj {[ "title" := JStr [];
                                 "value" := JStr (data result);
                                 "short" := JBool false ]}] ]} in
  do icon <- lift (Config.get (conf env) "slack" "icon" false VNone);
  do data <-
    match icon with
    | VNone => ret data
    | _ =>
        do emoji <- lift (startswith icon (py ":"));
        if emoji then ret (<["icon_emoji" := to_json icon]> data)
        else
          do http <- lift (startswith icon (py "http"));
          if http then ret (<["icon_url" := to_json icon]> data)
          else ret data
    end;
  modify (emit (HttpPost url data));;
  match requests_post env url data with
  | Some e => raise e
  | None => ret tt
  end.

(** ** The inbound event and [write] *)

Module Event.
Record t := {
  client_msg_id : str;
  type : str;
  text : str;
  user : str;
  ts : str;
  team : str;
  blocks : list jvalue;
  channel : str;
  event_ts : str
}.
End Event.

Module EventBox.
Record t := {
  token : str;
  team_id : str;
  api_app_id : str;
  event : Event.t;
  type : str;
  event_id : str;
  event_time : Z;
  authorizations : jvalue;
  is_ext_shared_channel : bool;
  event_context : str
}.
End EventBox.

Definition write (env : Env) (item : EventBox.t) : M unit :=
  do seen <- History.contains (EventBox.event_id item);
  if seen then ret tt
  else
    do result <-
      (do command <- lift (parse (Event.text (EventBox.event item)));
       execute env command);
    post env result;;
    History.add (EventBox.event_id item).

(** * Properties *)

(** ** The dedup ledger *)

(** A sequence of calls on the ledger, made one after the other. *)
Inductive call :=
  | Add (id : str)
  | Contains (id : str).

Definition run_call (c : call) : M unit :=
  match c with
  | Add id => History.add id
  | Contains id => History.contains id;; ret tt
  end.

(** The world after the calls [cs]; a call that raises leaves the world as
    it was when the exception left it, and the next call goes on from
    there. *)
Definition after (cs : list call) (w : World) : World :=
  foldl (λ w c, snd (run_call c w)) w cs.

(** Every [add] of the sequence is of an id the ledger does not contain at
    that moment: the way [write] calls it. *)
Fixpoint fresh_adds (cs : list call) (w : World) : Prop :=
  match cs with
  | [] => True
  | c :: cs' =>
      match c with
      | Add id => id ∉ items_set w
      | Contains _ => True
      end ∧ fresh_adds cs' (snd (run_call c w))
  end.

(** The ids of the [add] calls, in order. *)
Definition added (cs : list call) : list str :=
  omap (λ c, match c with Add id => Some id | Contains _ => None end) cs.

(** The ledger's invariant between calls. *)
Record consistent (w : World) : Prop := {
  consistent_set : items_set w = list_to_set (items w);
  consistent_nodup : NoDup (items w);
  consistent_size : length (items w) ≤ History.hist_size
}.

(** The last [n] elements of a list. *)
Definition last_n {A} (n : nat) (l : list A) : list A :=
  drop (length l - n) l.

(** Whether every [add] is fresh can be computed. *)
#[global] Instance fresh_adds_dec cs w : Decision (fresh_adds cs w).
Proof. revert w. induction cs as [|[id|id] cs IH]; intros w; cbn; apply _. Defined.

(** The ids ["a"], ["a"+1], ... used in the examples: [n] one-character
    strings starting at code point [a]. *)
Definition id_range (a n : nat) : list str := (λ i, [N.of_nat i]) <$> seq a n.

(** The steps of the parser as the specification words them. *)



(** [t] is [text] without its leading and trailing whitespace. *)
Definition trims (text t : str) : Prop :=
  ∃ l r, text = l ++ t ++ r
         ∧ Forall (λ c, isspace c = true) l
         ∧ Forall (λ c, isspace c = true) r
         ∧ (∀ c, head t = Some c → isspace c = false)
         ∧ (∀ c, last t = Some c → isspace c = false).

(** A character that the lexer takes as part of a word and that [parse]
    does not rewrite: no shell whitespace, no quote, no backslash, not the
    full-width space. *)
Definition plain (c : char) : Prop :=
  (c ∉ shlex.whitespace) ∧ (c ∉ shlex.quotes) ∧ (c ∉ shlex.escape)
  ∧ c ≠ fullwidth_space.

(** The lexer is inside a token: in a word, in a quoted part, or after a
    backslash met in one of the two. *)
Definition in_token (lx : shlex.lexer) : Prop :=
  match shlex.state lx with
  | shlex.in_space => False
  | shlex.in_word | shlex.in_quote _ => True
  | shlex.in_escape _ =>
      match shlex.escapedstate lx with
      | shlex.in_word | shlex.in_quote _ => True
      | _ => False
      end
  end.

(** [add("a")] twice, then 99 other ids: 101 adds in all. *)
Definition a_twice : list call :=
  Add (py "a") :: Add (py "a") :: (Add <$> id_range 1000 99).

(** [add("a")], 99 other ids, and [add("a")] again while it is the oldest. *)
Definition a_again : list call :=
  Add (py "a") :: (Add <$> id_range 1000 99) ++ [Add (py "a")].

(** The three steps of [write] between the dedup check and the marking:
    parse, execute, notify. *)
Definition parse_execute_post (env : Env) (item : EventBox.t) : M unit :=
  do result <-
    (do command <- lift (parse (Event.text (EventBox.event item)));
     execute env command);
  post env result.

(** A configuration, an environment and events for the examples: [echo] and
    [ls] are allowed; every process exits with status 1 after printing
    ["hi\n"]; bytes decode as Latin-1; the webhook accepts every post. *)
Definition conf0 : gmap string (gmap string value) :=
  {[ "command" := {[ "allows" := VArr [py "echo"; py "ls"] ]};
     "slack" := {[ "webhook" := VStr (py "https://hooks.example/T0");
                   "channel" := VStr (py "general");
                   "username" := VStr (py "shellbot");
                   "icon" := VStr (py ":robot:") ]} ]}.

Definition env0 : Env :=
  {| conf := conf0;
     subprocess_run := λ _,
       inr {| returncode := 1;
              stdout := [Byte.x68; Byte.x69; Byte.x0a];
              stderr := [] |};
     bytes_decode := λ b, inr (Byte.to_N <$> b);
     requests_post := λ _ _, None |}.

(** The same environment with a webhook that refuses the connection. *)
Definition env_down : Env :=
  {| conf := conf0;
     subprocess_run := subprocess_run env0;
     bytes_decode := bytes_decode env0;
     requests_post := λ _ _, Some RequestException |}.

Definition event0 (text : str) : EventBox.t :=
  {| EventBox.token := py "tok";
     EventBox.team_id := py "T0";
     EventBox.api_app_id := py "A0";
     EventBox.event :=
       {| Event.client_msg_id := py "m0";
          Event.type := py "app_mention";
          Event.text := text;
          Event.user := py "U9";
          Event.ts := py "1.0";
          Event.team := py "T0";
          Event.blocks := [];
          Event.channel := py "C0";
          Event.event_ts := py "1.0" |};
     EventBox.type := py "event_callback";
     EventBox.event_id := py "Ev01";
     EventBox.event_time := 1;
     EventBox.authorizations := JNull;
     EventBox.is_ext_shared_channel := false;
     EventBox.event_context := py "ctx" |}.

(** ** [Result.__repr__] *)

(** [f"Success({self.data})"] or [f"Failed({self.data})"]. *)
Definition Result_repr (r : Result) : str :=
  if is_success r then py "Success(" ++ data r ++ py ")"
  else py "Failed(" ++ data r ++ py ")".

(** ** The endpoint [main] *)

Module Challenge.
Record t := {
  token : str;
  type : str;
  challenge : str
}.
End Challenge.

(** The request body after validation against
    [Union[Challenge, EventBox, Any]]. *)
Inductive payload :=
  | IsChallenge (c : Challenge.t)
  | IsEventBox (e : EventBox.t)
  | IsOther (j : jvalue).

(** What the endpoint answers: the challenge string or a dictionary from
    [main], or the status 422 of the validation that precedes [main]. *)
Inductive response :=
  | RespStr (s : str)
  | RespDict (d : gmap string jvalue)
  | Resp422.

(** [background] is the list of tasks of [BackgroundTasks]; the only
    function ever added is [write], so a task is its argument. *)
Definition main (item : payload) (background : list EventBox.t)
    : response * list EventBox.t :=
  match item with
  | IsChallenge c => (RespStr (Challenge.challenge c), background)
  | IsEventBox e => (RespDict ∅, background ++ [e])
  | IsOther _ => (RespDict ∅, background)
  end.

(** The tasks run in order once the response is made; a task that raises
    ends the run. *)
Fixpoint run_tasks (env : Env) (tasks : list EventBox.t) : M unit :=
  match tasks with
  | [] => ret tt
  | t :: tasks' => write env t;; run_tasks env tasks'
  end.

(** One request. The body is required: a [null] body is refused by the
    validation with status 422 and [main] does not run. Otherwise [main]
    runs with a new [BackgroundTasks], then its tasks. An exception of a
    task stays in the server; the response is made before. *)
Definition request (env : Env) (item : payload) (w : World)
    : response * World :=
  match item with
  | IsOther JNull => (Resp422, w)
  | _ =>
      let '(resp, tasks) := main item [] in
      (resp, (run_tasks env tasks w).2)
  end.

(** Requests that do not overlap, handled one after the other. *)
Definition serve (env : Env) (reqs : list payload) (w : World) : World :=
  foldl (λ w item, (request env item w).2) w reqs.

(** The command [c] may run under the configuration of [env]: its first
    token is in [command.allows]. *)
Definition allowed (env : Env) (c : list str) : Prop :=
  ∃ tok rest allows,
    c = tok :: rest
    ∧ Config.get (conf env) "command" "allows" true VNone = inr allows
    ∧ py_in tok allows = inr true.

Definition is_spawn (e : effect) : bool :=
  match e with Spawn _ => true | HttpPost _ _ => false end.
Definition is_post (e : effect) : bool :=
  match e with HttpPost _ _ => true | Spawn _ => false end.
Definition is_event (p : payload) : bool :=
  match p with IsEventBox _ => true | _ => false end.

(** The text [parse] hands to [shlex.split]. *)
Definition prepared (text : str) : str :=
  strip (re.sub_char fullwidth_space (py " ")
           (re.sub_bol mention [] text)).

(** The lexer is inside a token that it will return, even if the token is
    still empty. *)
Definition will_emit (lx : shlex.lexer) : Prop :=
  match shlex.state lx with
  | shlex.in_space => False
  | shlex.in_word => shlex.token lx ≠ [] ∨ shlex.quoted lx = true
  | shlex.in_quote _ => True
  | shlex.in_escape _ =>
      match shlex.escapedstate lx with
      | shlex.in_word | shlex.in_quote _ => True
      | _ => False
      end
  end.

(** A configuration without the [slack] table, and one without
    [command]. *)
Definition conf_no_slack : gmap string (gmap string value) :=
  {[ "command" := {[ "allows" := VArr [py "echo"] ]} ]}.
Definition env_no_slack : Env :=
  {| conf := conf_no_slack;
     subprocess_run := subprocess_run env0;
     bytes_decode := bytes_decode env0;
     requests_post := requests_post env0 |}.
Definition env_no_command : Env :=
  {| conf := {[ "slack" := {[ "webhook" := VStr (py "https://hooks.example/T0") ]} ]};
     subprocess_run := subprocess_run env0;
     bytes_decode := bytes_decode env0;
     requests_post := requests_post env0 |}.

(** * Lemmas and theorems *)

Section ledger.

Lemma contains_run id w :
  History.contains id w = (inr (bool_decide (id ∈ items_set w)), w).
Proof. reflexivity. Qed.

(** [add] unfolded: what it returns and the world it leaves. *)
Lemma add_run id w :
  History.add id w =
    let l := items w ++ [id] in
    let s := items_set w ∪ {[id]} in
    if decide (History.hist_size < length l) then
      match l with
      | [] => (inl IndexError, Build_World l s (trace w))
      | x :: l' =>
          if bool_decide (x ∈ s)
          then (inr tt, Build_World l' (s ∖ {[x]}) (trace w))
          else (inl KeyError, Build_World l s (trace w))
      end
    else (inr tt, Build_World l s (trace w)).
Proof.
  unfold History.add, History.items_0, History.set_remove, bind, modify, get,
    set_items, set_items_set; cbn [items items_set trace].
  destruct (decide _) as [Hlt|Hge]; [|done].
  destruct (items w ++ [id]) as [|x l'] eqn:El; [done|].
  unfold ret, bind; cbn [items items_set trace].
  destruct (bool_decide _); done.
Qed.

Lemma startup_consistent : consistent startup.
Proof. split; cbn; [done|constructor|lia]. Qed.

(** An [add] of an id that is not in a consistent ledger returns, keeps
    the last [hist_size] of the entries, and keeps the ledger
    consistent. *)
Lemma add_fresh id w :
  consistent w → id ∉ items_set w →
  ∃ w', History.add id w = (inr tt, w')
        ∧ items w' = last_n History.hist_size (items w ++ [id])
        ∧ trace w' = trace w
        ∧ consistent w'.
Proof.
  intros [Hset Hnd Hsz] Hid. rewrite add_run. cbn zeta.
  assert (Hnd' : NoDup (items w ++ [id])).
  { apply NoDup_app. split_and!; [done| |apply NoDup_singleton].
    intros x Hx ->%list_elem_of_singleton. apply Hid. rewrite Hset. set_solver. }
  unfold last_n. rewrite length_app. cbn [length].
  destruct (decide _) as [Hlt|Hge].
  - assert (Hlen : length (items w) = History.hist_size) by lia.
    destruct (items w) as [|x l'] eqn:El.
    { cbn in Hlen. unfold History.hist_size in Hlen. lia. }
    cbn [app]. rewrite bool_decide_true by (rewrite Hset; set_solver).
    eexists. split_and!; [done| |done|].
    + cbn [items length]. replace (S (length l') + 1 - History.hist_size) with 1.
      2:{ cbn [length] in Hlen. lia. } done.
    + cbn [app] in Hnd'. apply NoDup_cons in Hnd' as [Hx Hnd'].
      split; cbn [items items_set].
      * rewrite Hset. clear -Hx. set_solver.
      * done.
      * rewrite length_app. cbn [length] in *. lia.
  - eexists. split_and!; [done| |done|].
    + cbn [items]. replace (length (items w) + 1 - History.hist_size) with 0 by lia.
      done.
    + split; cbn [items items_set]; [|done|rewrite length_app; cbn; lia].
      rewrite Hset, list_to_set_app_L. cbn. set_solver.
Qed.

Lemma last_n_app_last_n {A} n (l k : list A) :
  last_n n (last_n n l ++ k) = last_n n (l ++ k).
Proof.
  unfold last_n. rewrite !length_app, length_drop.
  destruct (decide (length l ≤ n)) as [Hle|Hgt].
  - replace (length l - n) with 0 by lia. by rewrite Nat.sub_0_r.
  - rewrite <-(drop_app_le l k) by lia. rewrite drop_drop. f_equal. lia.
Qed.

Lemma fresh_adds_app cs1 cs2 w :
  fresh_adds (cs1 ++ cs2) w ↔ fresh_adds cs1 w ∧ fresh_adds cs2 (after cs1 w).
Proof.
  revert w. induction cs1 as [|c cs1 IH]; intros w; cbn; [tauto|].
  rewrite IH. tauto.
Qed.

(** A call of a sequence of fresh adds returns and keeps the ledger
    consistent. *)
Lemma run_call_fresh c w :
  consistent w → fresh_adds [c] w →
  ∃ w', run_call c w = (inr tt, w')
        ∧ items w' = last_n History.hist_size (items w ++ added [c])
        ∧ consistent w'.
Proof.
  intros Hw [Hc _]. destruct c as [id|id]; cbn [run_call added omap].
  - destruct (add_fresh id w Hw Hc) as (w' & -> & Hi & _ & Hw'). eauto.
  - exists w. split_and!; [done| |done].
    cbn. rewrite app_nil_r. unfold last_n.
    destruct Hw as [_ _ Hsz]. by replace (_ - _) with 0 by lia.
Qed.

(** After a sequence of fresh adds the ledger is consistent and holds the
    last [hist_size] ids of those it started with and those added. *)
Lemma after_fresh cs w :
  consistent w → fresh_adds cs w →
  consistent (after cs w)
  ∧ items (after cs w) = last_n History.hist_size (items w ++ added cs).
Proof.
  revert w. induction cs as [|c cs IH]; intros w Hw Hcs.
  - split; [done|]. cbn. rewrite app_nil_r. unfold last_n.
    destruct Hw as [_ _ Hsz]. by replace (_ - _) with 0 by lia.
  - destruct Hcs as [Hc Hcs].
    destruct (run_call_fresh c w Hw (conj Hc I)) as (w' & Hrun & Hi & Hw').
    unfold after; cbn [foldl]. fold (after cs (run_call c w).2).
    rewrite Hrun in *. cbn [snd] in *.
    destruct (IH w' Hw' Hcs) as [Hc' Hi']. split; [done|].
    rewrite Hi', Hi, last_n_app_last_n, <-(assoc_L (++)).
    do 2 f_equal. by destruct c.
Qed.

Lemma added_Add ids : added (Add <$> ids) = ids.
Proof.
  unfold added. induction ids as [|i ids IH]; cbn; [done|]. by f_equal.
Qed.

(** An id stays in the ledger while fewer than [hist_size] fresh ids
    have been added after it. *)
Lemma recent_contained ids id later :
  fresh_adds (Add <$> ids ++ id :: later) startup →
  length later < History.hist_size →
  id ∈ items_set (after (Add <$> ids ++ id :: later) startup).
Proof.
  intros Hf Hlen.
  destruct (after_fresh _ _ startup_consistent Hf) as [[-> _ _] ->].
  rewrite added_Add. cbn [items startup app]. unfold last_n.
  rewrite elem_of_list_to_set, drop_app_le
    by (rewrite length_app; cbn [length]; lia).
  set_solver.
Qed.

End ledger.

(** C3 (amended): in every sequence of [add] and [contains] calls from
    start-up in which each [add] is of an id the ledger does not contain at
    that moment, every call returns, and after it the membership set has
    the content of the ordered sequence and the sequence has at most 100
    entries; [contains] changes nothing, an [add] below capacity appends,
    and an [add] at capacity evicts exactly the oldest entry. *)
Theorem ledger_invariant_fresh_adds (cs1 cs2 : list call) (c : call) :
  fresh_adds (cs1 ++ c :: cs2) startup →
  let w := after cs1 startup in
  ∃ w', run_call c w = (inr tt, w')
    ∧ items_set w' = list_to_set (items w')
    ∧ length (items w') ≤ 100
    ∧ match c with
      | Contains _ => w' = w
      | Add id =>
          (length (items w) < 100 → items w' = items w ++ [id])
          ∧ (length (items w) = 100 →
             ∃ oldest rest,
               items w = oldest :: rest ∧ items w' = rest ++ [id]
               ∧ oldest ∉ items_set w')
      end.
Proof.
  intros [Hf1 [Hc _]]%fresh_adds_app w.
  destruct (after_fresh _ _ startup_consistent Hf1) as [Hw _]. fold w in Hw, Hc.
  destruct (run_call_fresh c w Hw (conj Hc I)) as (w' & Hrun & Hi & Hw').
  exists w'. split_and!; [done|apply Hw'|apply Hw'|].
  destruct c as [id|id].
  2:{ change (run_call (Contains id) w) with (inr tt : exn + unit, w) in Hrun.
      congruence. }
  cbn in Hi. unfold last_n in Hi. rewrite length_app in Hi. cbn [length] in Hi.
  split; intros Hlen.
  - rewrite Hi. by replace (_ - _) with 0 by (unfold History.hist_size; lia).
  - destruct (items w) as [|oldest rest] eqn:El; [done|].
    exists oldest, rest. rewrite Hi.
    replace (_ - _) with 1 by (unfold History.hist_size; lia).
    split_and!; [done|done|].
    destruct Hw' as [-> _ _]. rewrite Hi.
    replace (_ - _) with 1 by (unfold History.hist_size; lia). cbn [drop app].
    destruct Hw as [Hset Hnd _]. rewrite El in Hset, Hnd.
    apply NoDup_cons in Hnd as [Hnd _]. rewrite Hset in Hc. set_solver.
Qed.

(** C4 (amended): when each [add] is of an id the ledger does not contain
    at that moment, [contains id] is true right after [add id] and stays
    true while fewer than 100 ids have been added after it, and is false
    once 100 have; and after more than 100 such adds the ledger holds
    exactly the last 100 ids added, which are pairwise distinct, the older
    ones having been evicted in the order they were added. *)
Theorem ledger_retains_recent (ids later : list str) (id : str) :
  fresh_adds (Add <$> ids ++ id :: later) startup →
  let w := after (Add <$> ids ++ id :: later) startup in
  (length later < 100 → History.contains id w = (inr true, w))
  ∧ (length later = 100 → History.contains id w = (inr false, w))
  ∧ (100 < length (ids ++ id :: later) →
     items w = last_n 100 (ids ++ id :: later)
     ∧ items_set w = list_to_set (items w)
     ∧ NoDup (items w)
     ∧ length (items w) = 100).
Proof.
  intros Hf w.
  destruct (after_fresh _ _ startup_consistent Hf) as [Hw Hi]. fold w in Hw, Hi.
  rewrite added_Add in Hi. cbn [items startup app] in Hi.
  split_and!.
  - intros Hlen. rewrite contains_run. by rewrite bool_decide_true
      by by apply recent_contained.
  - intros Hlen. rewrite contains_run. rewrite bool_decide_false; [done|].
    destruct Hw as [-> _ _]. rewrite Hi, elem_of_list_to_set. unfold last_n.
    replace (_ - _) with (length ids + 1)
      by (rewrite length_app; cbn [length]; unfold History.hist_size; lia).
    rewrite <-drop_drop, drop_app_length. cbn [drop]. rewrite drop_0.
    intros (l1 & l2 & Hl)%list_elem_of_split.
    assert (Hl1 : length l1 < History.hist_size).
    { apply (f_equal length) in Hl. rewrite length_app in Hl. cbn in Hl.
      unfold History.hist_size. lia. }
    rewrite Hl in Hf.
    replace (ids ++ id :: l1 ++ id :: l2) with ((ids ++ id :: l1) ++ id :: l2) in Hf
      by by rewrite <-(assoc_L (++)).
    rewrite fmap_app in Hf. apply fresh_adds_app in Hf as [Hf1 [Hid _]].
    by apply Hid, recent_contained.
  - intros Hlen. split_and!; [done|apply Hw|apply Hw|].
    rewrite Hi. unfold last_n. rewrite length_drop. unfold History.hist_size. lia.
Qed.

(** C3, as stated, fails when an id is added twice: after [add("a")] twice
    and 99 other ids, the first ["a"] is evicted and leaves the set while
    the second is still in the list; the next [add] then finds the oldest
    entry missing from the set, raises [KeyError] and leaves 101 entries. *)
Lemma ledger_invariant_duplicate_add :
  let w := after a_twice startup in
  items_set w ≠ list_to_set (items w)
  ∧ (History.add (py "z") w).1 = inl KeyError
  ∧ length (items (History.add (py "z") w).2) = 101.
Proof.
  split_and!.
  - apply (bool_decide_eq_false_1 _). vm_compute. reflexivity.
  - vm_compute. reflexivity.
  - vm_compute. reflexivity.
Qed.

Lemma ledger_invariant_fresh_adds_witness :
  ∃ w', run_call (Add (py "a")) (after (Add <$> id_range 1000 100) startup)
        = (inr tt, w')
    ∧ items_set w' = list_to_set (items w')
    ∧ length (items w') ≤ 100.
Proof.
  destruct (ledger_invariant_fresh_adds (Add <$> id_range 1000 100) []
              (Add (py "a"))) as (w' & Hrun & Hset & Hlen & _).
  - apply (bool_decide_unpack _). vm_compute. exact I.
  - exists w'. auto.
Defined.

(** C4, as stated, fails when an id is added again while it is the oldest
    entry: right after the second [add("a")] the eviction removes ["a"]
    from the set, and [contains("a")] is false. *)
Lemma ledger_forgets_readded_id :
  (History.contains (py "a") (after a_again startup)).1 = inr false.
Proof. vm_compute. reflexivity. Qed.

Lemma ledger_retains_recent_witness :
  let w := after (Add <$> id_range 1000 60 ++ py "a" :: id_range 2000 50) startup in
  History.contains (py "a") w = (inr true, w)
  ∧ items w = last_n 100 (id_range 1000 60 ++ py "a" :: id_range 2000 50).
Proof.
  destruct (ledger_retains_recent (id_range 1000 60) (id_range 2000 50) (py "a"))
    as (Hc & _ & Hr).
  - apply (bool_decide_unpack _). vm_compute. exact I.
  - split.
    + apply Hc. cbn. lia.
    + apply Hr. cbn. lia.
Defined.

(** ** The executor *)

(** C1, as stated, fails on the empty command: [execute([])] stops at its
    [assert] and raises [AssertionError] instead of returning a [Failure]. *)
Lemma execute_empty_raises :
  (execute env0 [] startup).1 = inl AssertionError.
Proof. reflexivity. Qed.

(** C1 (amended): [execute] raises [AssertionError] on the empty command,
    whatever the configuration. When the configuration gives
    [command.allows] as a list, then on a non-empty command whose first
    token is not in the list [execute] returns [Failure("Error: <first
    token> is not allowed")] and spawns nothing, and on no non-empty command
    does it raise. *)
Theorem execute_not_allowed (env : Env) (allows : list str)
    (command : list str) (w : World) :
  (command = [] → execute env command w = (inl AssertionError, w))
  ∧ (Config.get (conf env) "command" "allows" true VNone = inr (VArr allows) →
     (∀ tok rest, command = tok :: rest → tok ∉ allows →
        execute env command w
        = (inr (Result.failed (py "Error: " ++ tok ++ py " is not allowed")),
           w))
     ∧ (command ≠ [] → ∃ r w', execute env command w = (inr r, w'))).
Proof.
  split; [by intros ->|]. intros Hconf. split.
  - intros tok rest -> Htok. unfold execute, bind, lift, ret. cbn [length].
    rewrite Hconf. cbn. by rewrite bool_decide_false.
  - destruct command as [|tok rest]; [done|intros _].
    unfold execute, bind, lift, ret, try_except, modify. cbn [length].
    rewrite Hconf. cbn. destruct (bool_decide _); cbn; [|eauto].
    destruct (subprocess_run env _) as [e|proc]; [eauto|].
    destruct (bytes_decode env _); eauto.
Qed.

Lemma execute_not_allowed_witness :
  execute env0 [py "rm"; py "-rf"; py "/"] startup
  = (inr (Result.failed (py "Error: rm is not allowed")), startup).
Proof.
  refine (proj1 (proj2 (execute_not_allowed env0 [py "echo"; py "ls"]
            [py "rm"; py "-rf"; py "/"] startup) _) (py "rm") _ _ _).
  - reflexivity.
  - reflexivity.
  - apply (bool_decide_unpack _). vm_compute. exact I.
Defined.



(** ** The notifier *)

(** C8: with the webhook, channel and username configured and the icon
    absent or a string, [post] sends one payload whose color is [#202020]
    for a [Success] and [#f02020] for a [Failure]; whose channel is the
    configured one, with a [#] put in front exactly when it does not start
    with one; and which carries the icon as [icon_emoji] when it starts
    with [:], as [icon_url] when it starts with [http], and carries neither
    field when the icon has neither prefix or is absent. *)
Theorem post_payload (env : Env) (result : Result) (w : World)
    (url username icon : value) (channel : str) :
  Config.get (conf env) "slack" "webhook" true VNone = inr url →
  Config.get (conf env) "slack" "channel" true VNone = inr (VStr channel) →
  Config.get (conf env) "slack" "username" true VNone = inr username →
  Config.get (conf env) "slack" "icon" false VNone = inr icon →
  (icon = VNone ∨ ∃ s, icon = VStr s) →
  ∃ data,
    trace (post env result w).2 = trace w ++ [HttpPost url data]
    ∧ ((∀ d, result = Result.success d → data !! "color" = Some (JStr (py "#202020")))
       ∧ (∀ d, result = Result.failed d → data !! "color" = Some (JStr (py "#f02020"))))
    ∧ ((py "#" `prefix_of` channel → data !! "channel" = Some (JStr channel))
       ∧ (¬ py "#" `prefix_of` channel →
          data !! "channel" = Some (JStr (py "#" ++ channel))))
    ∧ ((∀ s, icon = VStr s → py ":" `prefix_of` s →
          data !! "icon_emoji" = Some (JStr s) ∧ data !! "icon_url" = None)
       ∧ (∀ s, icon = VStr s → py "http" `prefix_of` s →
            data !! "icon_url" = Some (JStr s) ∧ data !! "icon_emoji" = None)
       ∧ (icon = VNone ∨ (∃ s, icon = VStr s ∧ ¬ py ":" `prefix_of` s
                                ∧ ¬ py "http" `prefix_of` s) →
          data !! "icon_emoji" = None ∧ data !! "icon_url" = None)).
Proof.
  intros Hurl Hch Huser Hicon Hty.
  assert (Hne : ∀ s, py ":" `prefix_of` s → py "http" `prefix_of` s → False).
  { intros s [k1 ->] [k2 Hk]. discriminate Hk. }
  unfold post, bind, lift, ret, modify.
  rewrite Hurl, Hch, Huser, Hicon. cbn [startswith].
  set (ch := if negb (bool_decide (py "#" `prefix_of` channel))
             then str_add (py "#") (VStr channel) else inr (VStr channel)).
  assert (Hchv : ch = inr (VStr (if bool_decide (py "#" `prefix_of` channel)
                                 then channel else py "#" ++ channel))).
  { unfold ch. by destruct (bool_decide _). }
  rewrite Hchv. clear ch Hchv.
  set (data0 := ({[ "username" := _; "channel" := _; "color" := _;
                    "fields" := _ ]} : gmap string jvalue)).
  assert (Hcol : (∀ d, result = Result.success d →
                       data0 !! "color" = Some (JStr (py "#202020")))
               ∧ (∀ d, result = Result.failed d →
                       data0 !! "color" = Some (JStr (py "#f02020")))).
  { split; intros d ->; unfold data0; by simplify_map_eq. }
  assert (Hchan : (py "#" `prefix_of` channel →
                   data0 !! "channel" = Some (JStr channel))
                ∧ (¬ py "#" `prefix_of` channel →
                   data0 !! "channel" = Some (JStr (py "#" ++ channel)))).
  { split; intros Hp; unfold data0; simplify_map_eq; cbn;
      [by rewrite bool_decide_true|by rewrite bool_decide_false]. }
  assert (Hno : data0 !! "icon_emoji" = None ∧ data0 !! "icon_url" = None).
  { split; unfold data0; by simplify_map_eq. }
  clearbody data0.
  destruct Hty as [->|[s ->]].
  { exists data0. cbn. destruct (requests_post env url data0); cbn;
      (split_and!; [done|apply Hcol|apply Hcol|apply Hchan|apply Hchan
                   |done|done|done]). }
  cbn [startswith].
  destruct (decide (py ":" `prefix_of` s)) as [He|He].
  { rewrite (bool_decide_true _ He).
    exists (<["icon_emoji" := JStr s]> data0).
    destruct Hcol, Hchan, Hno.
    cbn. destruct (requests_post env url _); cbn;
      (split_and!; [done|intros; simplify_map_eq; eauto..
                   |intros ? [= <-] _; by simplify_map_eq
                   |intros ? [= <-] Hh; by destruct (Hne s)
                   |intros [?|(? & [= <-] & ? & ?)]; done]). }
  rewrite (bool_decide_false _ He).
  destruct (decide (py "http" `prefix_of` s)) as [Hh|Hh].
  { rewrite (bool_decide_true _ Hh).
    exists (<["icon_url" := JStr s]> data0).
    destruct Hcol, Hchan, Hno.
    cbn. destruct (requests_post env url _); cbn;
      (split_and!; [done|intros; simplify_map_eq; eauto..
                   |intros ? [= <-] ?; done
                   |intros ? [= <-] _; by simplify_map_eq
                   |intros [?|(? & [= <-] & ? & ?)]; done]). }
  rewrite (bool_decide_false _ Hh).
  exists data0. destruct Hcol, Hchan, Hno.
  cbn. destruct (requests_post env url _); cbn;
    (split_and!; [done|eauto..|intros ? [= <-] ?; done
                 |intros ? [= <-] ?; done|done]).
Qed.

Lemma post_payload_witness :
  ∃ data,
    trace (post env0 (Result.success (py "hi")) startup).2
    = [HttpPost (VStr (py "https://hooks.example/T0")) data]
    ∧ data !! "color" = Some (JStr (py "#202020"))
    ∧ data !! "channel" = Some (JStr (py "#general"))
    ∧ data !! "icon_emoji" = Some (JStr (py ":robot:"))
    ∧ data !! "icon_url" = None.
Proof.
  destruct (post_payload env0 (Result.success (py "hi")) startup
              (VStr (py "https://hooks.example/T0")) (VStr (py "shellbot"))
              (VStr (py ":robot:")) (py "general"))
    as (data & Htrace & [Hcol _] & [_ Hchan] & Hicon & _).
  - reflexivity.
  - reflexivity.
  - reflexivity.
  - reflexivity.
  - right. by eexists.
  - exists data. split_and!.
    + exact Htrace.
    + by apply (Hcol (py "hi")).
    + apply Hchan. intros [k Hk]. discriminate Hk.
    + apply (Hicon (py ":robot:")); [done|]. by exists (py "robot:").
    + apply (Hicon (py ":robot:")); [done|]. by exists (py "robot:").
Defined.

(** ** The dispatcher *)

(** [execute] and [post] leave the ledger as it is. *)
Lemma execute_ledger env command w :
  items (execute env command w).2 = items w
  ∧ items_set (execute env command w).2 = items_set w.
Proof.
  unfold execute, bind, lift, ret, raise, try_except, modify.
  destruct (decide _); [|done]. destruct (Config.get _ _ _ _ _); [done|].
  destruct (index_0 command); [done|]. destruct (py_in _ _) as [|[]]; [done| |done].
  cbn. destruct (subprocess_run env command); [done|].
  by destruct (bytes_decode env _).
Qed.

Lemma post_ledger env result w :
  items (post env result w).2 = items w
  ∧ items_set (post env result w).2 = items_set w.
Proof.
  unfold post, bind, lift, ret, raise, modify.
  repeat match goal with
         | |- context [match ?x with _ => _ end] =>
             lazymatch type of x with
             | prod _ _ => fail
             | _ => destruct x; cbn; try done
             end
         end.
Qed.

(** The three steps between the check and the marking leave the ledger as
    it is, whether they complete or raise. *)
Lemma parse_execute_post_ledger env item w :
  items (parse_execute_post env item w).2 = items w
  ∧ items_set (parse_execute_post env item w).2 = items_set w.
Proof.
  unfold parse_execute_post, bind, lift.
  destruct (parse _) as [e|command]; [done|].
  pose proof (execute_ledger env command w) as [Hi Hs].
  destruct (execute env command w) as [[e|result] w1]; [done|].
  cbn [snd] in Hi, Hs. rewrite <-Hi, <-Hs. apply post_ledger.
Qed.

Lemma write_run env item w :
  write env item w =
    if bool_decide (EventBox.event_id item ∈ items_set w) then (inr tt, w)
    else (parse_execute_post env item;; History.add (EventBox.event_id item)) w.
Proof.
  unfold write, parse_execute_post, bind, History.contains, get, ret, lift.
  destruct (bool_decide _); [done|].
  destruct (parse _) as [e|command]; [done|].
  by destruct (execute env command w) as [[e|result] w1].
Qed.

(** C5: [write] on an event whose id is in the ledger returns at once and
    leaves the world as it is: nothing is executed and nothing is posted.
    Otherwise it parses, executes and notifies, none of which touches the
    ledger; when the three complete, the id is marked by [History.add] on
    the world they leave, which on a consistent ledger returns, adds no
    effect, and leaves the id in the ledger as its newest entry; when one
    of the three raises, the exception leaves [write] before the marking,
    the id is still absent, and a re-delivery goes through the three steps
    again. *)
Theorem write_dedup (env : Env) (item : EventBox.t) (w : World) :
  let id := EventBox.event_id item in
  (id ∈ items_set w → write env item w = (inr tt, w))
  ∧ (id ∉ items_set w →
     ∃ r w1,
       parse_execute_post env item w = (r, w1)
       ∧ items w1 = items w ∧ items_set w1 = items_set w
       ∧ match r with
         | inr _ =>
             (∃ command result w',
                parse (Event.text (EventBox.event item)) = inr command
                ∧ execute env command w = (inr result, w')
                ∧ post env result w' = (inr tt, w1))
             ∧ write env item w = History.add id w1
             ∧ (consistent w →
                ∃ w2, write env item w = (inr tt, w2)
                      ∧ id ∈ items_set w2
                      ∧ items w2 = last_n 100 (items w ++ [id])
                      ∧ trace w2 = trace w1)
         | inl e =>
             write env item w = (inl e, w1)
             ∧ History.contains id w1 = (inr false, w1)
             ∧ write env item w1
               = (parse_execute_post env item;; History.add id) w1
         end).
Proof.
  intros id. split; intros Hid; rewrite write_run; fold id.
  { by rewrite bool_decide_true. }
  rewrite bool_decide_false by done.
  pose proof (parse_execute_post_ledger env item w) as [Hi Hs].
  destruct (parse_execute_post env item w) as [r w1] eqn:Hrun.
  cbn [snd] in Hi, Hs. exists r, w1. split_and!; [done..|].
  destruct r as [e|[]].
  - split_and!.
    + unfold bind. by rewrite Hrun.
    + rewrite contains_run, bool_decide_false; [done|by rewrite Hs].
    + rewrite write_run. fold id. by rewrite bool_decide_false by by rewrite Hs.
  - assert (Hwrite : (parse_execute_post env item;; History.add id) w
                     = History.add id w1) by (unfold bind; by rewrite Hrun).
    split_and!; [|done|].
    + unfold parse_execute_post, bind, lift in Hrun.
      destruct (parse _) as [e|command]; [done|].
      destruct (execute env command w) as [[e|result] w'] eqn:Hex; [done|].
      by exists command, result, w'.
    + intros [Hset Hnd Hsz]. rewrite Hwrite.
      assert (Hw1 : consistent w1) by (split; by rewrite ?Hi, ?Hs).
      destruct (add_fresh id w1 Hw1) as (w2 & -> & Hi2 & Ht2 & [Hset2 _ _]);
        [by rewrite Hs|].
      rewrite Hi in Hi2. exists w2. split_and!; [done| |done|done].
      rewrite Hset2, Hi2. unfold last_n.
      rewrite elem_of_list_to_set, drop_app_le
        by (rewrite length_app; cbn [length]; unfold History.hist_size; lia).
      set_solver.
Qed.

Lemma write_dedup_witness :
  let ev := event0 (py "<@U1> echo hi") in
  let w1 := (write env0 ev startup).2 in
  write env0 ev w1 = (inr tt, w1)
  ∧ (∃ data, trace w1 = [Spawn [py "echo"; py "hi"];
                         HttpPost (VStr (py "https://hooks.example/T0")) data])
  ∧ py "Ev01" ∈ items_set w1.
Proof.
  intros ev w1. split_and!.
  - apply (write_dedup env0 ev w1). apply (bool_decide_unpack _).
    vm_compute. exact I.
  - eexists. vm_compute. reflexivity.
  - destruct (proj2 (write_dedup env0 ev startup)) as (r & w' & Hrun & _ & _ & Hr).
    { cbn. set_solver. }
    assert (Hfst : (parse_execute_post env0 ev startup).1 = inr tt)
      by by vm_compute.
    rewrite Hrun in Hfst. cbn [fst] in Hfst. subst r.
    destruct Hr as (_ & _ & Hmark).
    destruct (Hmark startup_consistent) as (w2 & Hw2 & Hin & _).
    subst w1. by rewrite Hw2.
Defined.

(** A delivery interrupted by the webhook being down leaves the id
    unrecorded, and the re-delivery runs the command a second time. *)
Example write_redelivery_after_failure :
  let ev := event0 (py "<@U1> echo hi") in
  let w1 := (write env_down ev startup).2 in
  (write env_down ev startup).1 = inl RequestException
  ∧ items w1 = []
  ∧ ∃ d1 d2, trace (write env_down ev w1).2
       = [Spawn [py "echo"; py "hi"]; HttpPost (VStr (py "https://hooks.example/T0")) d1;
          Spawn [py "echo"; py "hi"]; HttpPost (VStr (py "https://hooks.example/T0")) d2].
Proof.
  split_and!; [by vm_compute..|]. do 2 eexists. vm_compute. reflexivity.
Qed.

(** C10: [contains] leaves the whole world as it is; [parse], [execute]
    and [post] leave the ordered sequence and the membership set as they
    are; [add] does change the ledger. *)
Theorem ledger_changed_only_by_add (env : Env) (w : World) :
  (∀ id, (History.contains id w).2 = w)
  ∧ (∀ text, (lift (parse text) w).2 = w)
  ∧ (∀ command, items (execute env command w).2 = items w
                ∧ items_set (execute env command w).2 = items_set w)
  ∧ (∀ result, items (post env result w).2 = items w
               ∧ items_set (post env result w).2 = items_set w)
  ∧ (∀ id, consistent w → id ∉ items_set w →
       items (History.add id w).2 ≠ items w
       ∧ items_set (History.add id w).2 ≠ items_set w).
Proof.
  split_and!; [done|done|intros; apply execute_ledger
              |intros; apply post_ledger|].
  intros id Hw Hid.
  destruct (add_fresh id w Hw Hid) as (w' & -> & Hi & _ & Hw'). cbn [snd].
  assert (Hin : id ∈ items w').
  { rewrite Hi. unfold last_n. rewrite drop_app_le
      by (rewrite length_app; cbn [length]; unfold History.hist_size; lia).
    set_solver. }
  destruct Hw as [Hset _ _], Hw' as [Hset' _ _]. split.
  - intros Heq. apply Hid. rewrite Hset, <-Heq. set_solver.
  - intros Heq. apply Hid. rewrite <-Heq, Hset'. set_solver.
Qed.

Lemma ledger_changed_only_by_add_witness :
  items (History.add (py "Ev01") startup).2 ≠ items startup
  ∧ items_set (History.add (py "Ev01") startup).2 ≠ items_set startup.
Proof.
  apply (ledger_changed_only_by_add env0 startup).
  - apply startup_consistent.
  - cbn. set_solver.
Defined.

(** ** The parser *)

Section parser.

Lemma match_here_star_cons c p x s :
  re.match_here (re.NotLitStar c :: p) (x :: s)
  = if decide (x = c) then re.match_here p (x :: s)
    else match re.match_here (re.NotLitStar c :: p) s with
         | Some r => Some r
         | None => re.match_here p (x :: s)
         end.
Proof. reflexivity. Qed.

(** [[^>]*>] matches up to the first [>]. *)
Lemma match_here_to_gt s rest :
  re.match_here [re.NotLitStar 62; re.Lit 62]%N s = Some rest
  ↔ ∃ body, (62%N ∉ body) ∧ s = body ++ 62%N :: rest.
Proof.
  revert rest. induction s as [|x s IH]; intros rest.
  - split; [done|]. by intros ([|??] & _ & ?).
  - rewrite match_here_star_cons. destruct (decide (x = 62%N)) as [->|Hx].
    + cbn. split.
      * intros [= ->]. exists []. split; [set_solver|done].
      * intros ([|y body] & Hb & Heq); [by injection Heq as ->|].
        injection Heq as <- _. set_solver.
    + destruct (re.match_here _ s) as [r|] eqn:Hs.
      * split.
        -- intros [= <-]. destruct (proj1 (IH r) eq_refl) as (body & Hb & ->).
           exists (x :: body). split; [set_solver|done].
        -- intros ([|y body] & Hb & Heq); [by injection Heq as ->|].
           injection Heq as <- ->.
           apply IH. exists body. split; [set_solver|done].
      * cbn. rewrite decide_False by done. split; [done|].
        intros ([|y body] & Hb & Heq); [by injection Heq as ->|].
        injection Heq as <- ->.
        assert (None = Some rest); [|done].
        apply IH. exists body. split; [set_solver|done].
Qed.

Lemma match_here_mention text rest :
  re.match_here mention text = Some rest
  ↔ ∃ body, (62%N ∉ body) ∧ text = py "<@" ++ body ++ py ">" ++ rest.
Proof.
  destruct text as [|c1 [|c2 s]].
  - split; [done|]. by intros (? & _ & ?).
  - split; [cbn; by case_decide|]. by intros (? & _ & ?).
  - change (re.match_here mention (c1 :: c2 :: s)) with
      (if decide (c1 = 60%N) then
         if decide (c2 = 64%N)
         then re.match_here [re.NotLitStar 62; re.Lit 62]%N s else None
       else None).
    destruct (decide (c1 = 60%N)) as [->|H1].
    2:{ split; [done|]. intros (? & _ & [= ? _]). done. }
    destruct (decide (c2 = 64%N)) as [->|H2].
    2:{ split; [done|]. intros (? & _ & [= ? _]). done. }
    rewrite match_here_to_gt. split.
    + intros (body & Hb & ->). by exists body.
    + intros (body & Hb & [= ->]). by exists body.
Qed.



Lemma lstrip_spec s :
  ∃ l, s = l ++ lstrip s
       ∧ Forall (λ c, isspace c = true) l
       ∧ ∀ c, head (lstrip s) = Some c → isspace c = false.
Proof.
  induction s as [|c s (l & Hs & Hl & Hh)]; [by exists []|].
  cbn [lstrip]. destruct (isspace c) eqn:Hc.
  - exists (c :: l). split_and!; [cbn; by f_equal|by constructor|done].
  - exists []. split_and!; [done|constructor|]. by intros ? [= <-].
Qed.

Lemma rstrip_spec s :
  ∃ r, s = rstrip s ++ r
       ∧ Forall (λ c, isspace c = true) r
       ∧ ∀ c, last (rstrip s) = Some c → isspace c = false.
Proof.
  unfold rstrip. destruct (lstrip_spec (reverse s)) as (l & Hs & Hl & Hh).
  exists (reverse l). split_and!.
  - by rewrite <-reverse_app, <-Hs, reverse_involutive.
  - by apply Forall_reverse.
  - intros c. rewrite last_reverse. apply Hh.
Qed.

Lemma strip_spec s : trims s (strip s).
Proof.
  unfold strip. destruct (lstrip_spec s) as (l & Hs & Hl & Hh).
  destruct (rstrip_spec (lstrip s)) as (r & Hs' & Hr & Hlast).
  exists l, r. split_and!; [by rewrite <-Hs'|done|done| |done].
  intros c Hc. apply Hh. rewrite Hs'.
  by destruct (rstrip (lstrip s)).
Qed.

(** *** The lexer *)

(** The lexer raises nothing but [ValueError]. *)
Lemma tokens_raises input lx e :
  shlex.tokens lx input = inl e → ∃ msg, e = ValueError msg.
Proof.
  revert lx. induction input as [|c input IH]; intros lx; cbn [shlex.tokens].
  - destruct (shlex.state lx); intros [= <-] || intros [=]; eauto.
  - destruct (shlex.step lx c) as [lx' []]; [|apply IH].
    destruct (shlex.result lx'); [|done].
    destruct (shlex.tokens _ input) eqn:Ht; [|done].
    intros [= <-]. by eapply IH.
Qed.

Lemma step_plain_space esc q tok c :
  plain c →
  shlex.step (shlex.Lexer shlex.in_space esc q tok) c
  = (shlex.Lexer shlex.in_word esc q [c], false).
Proof.
  intros (Hw & Hq & He & _). cbn.
  rewrite !bool_decide_false by done. by destruct (shlex.wordchar c).
Qed.

Lemma step_plain_word esc q tok c :
  plain c →
  shlex.step (shlex.Lexer shlex.in_word esc q tok) c
  = (shlex.Lexer shlex.in_word esc q (tok ++ [c]), false).
Proof. intros (Hw & Hq & He & _). cbn. by rewrite !bool_decide_false. Qed.

(** Plain characters are appended to the word being read. *)
Lemma tokens_plain_word p esc q tok input :
  Forall plain p →
  shlex.tokens (shlex.Lexer shlex.in_word esc q tok) (p ++ input)
  = shlex.tokens (shlex.Lexer shlex.in_word esc q (tok ++ p)) input.
Proof.
  intros Hp. revert tok. induction Hp as [|c p Hc Hp IH]; intros tok.
  - by rewrite app_nil_r.
  - cbn [app shlex.tokens]. rewrite step_plain_word by done.
    by rewrite IH, <-(assoc_L (++)).
Qed.

(** What the lexer has read of a token is the start of the first token it
    returns. *)
Lemma tokens_first_prefix p input lx toks :
  p ≠ [] → p `prefix_of` shlex.token lx → in_token lx →
  shlex.tokens lx input = inr toks →
  ∃ t ts, toks = t :: ts ∧ p `prefix_of` t.
Proof.
  intros Hne. revert lx toks.
  assert (Hres : ∀ lx, p `prefix_of` shlex.token lx →
                       shlex.result lx = Some (shlex.token lx)).
  { intros lx [k Hk]. unfold shlex.result. case_bool_decide as Ht.
    - rewrite Ht in Hk. by destruct p.
    - by rewrite andb_false_r. }
  induction input as [|c input IH]; intros [st esc q tok] toks Hp Hin;
    cbn [shlex.tokens shlex.state].
  - destruct st; [done| | |]; intros [= <-] || intros [=].
    rewrite Hres by done. eauto.
  - unfold in_token in Hin. cbn [shlex.state shlex.escapedstate shlex.token] in *.
    destruct st as [| |qc|ec]; [done| | |].
    + cbn [shlex.step]. destruct (bool_decide (c ∈ shlex.whitespace)).
      { assert (shlex.emits (shlex.Lexer shlex.in_word esc q tok) = true) as ->.
        { unfold shlex.emits. cbn. case_bool_decide as Ht; [|done].
          destruct Hp as [k Hk]. rewrite Ht in Hk. by destruct p. }
        rewrite Hres by done. cbn [shlex.token].
        destruct (shlex.tokens _ input); intros [= <-]. eauto. }
      destruct (bool_decide (c ∈ shlex.quotes)); [by apply IH|].
      destruct (bool_decide (c ∈ shlex.escape)); [by apply IH|].
      apply IH; [by apply prefix_app_r|done].
    + cbn [shlex.step]. destruct (bool_decide (c = qc)); [by apply IH|].
      destruct (_ && _); [by apply IH|].
      apply IH; [by apply prefix_app_r|done].
    + cbn [shlex.step]. apply IH.
      * cbn [shlex.token]. apply prefix_app_r.
        destruct esc; try done. destruct (_ && _); [by apply prefix_app_r|done].
      * unfold in_token. cbn. by destruct esc.
Qed.

Lemma sub_char_plain p rest :
  Forall plain p →
  re.sub_char fullwidth_space (py " ") (p ++ rest)
  = p ++ re.sub_char fullwidth_space (py " ") rest.
Proof.
  induction 1 as [|c p (_ & _ & _ & Hc) _ IH]; [done|].
  cbn [app re.sub_char]. by rewrite decide_False, IH.
Qed.

Lemma lstrip_app_nonspace a c b :
  isspace c = false → lstrip (a ++ c :: b) = lstrip a ++ c :: b.
Proof.
  intros Hc. induction a as [|x a IH]; cbn [app lstrip]; [by rewrite Hc|].
  by destruct (isspace x).
Qed.

Lemma rstrip_app_nonspace a c b :
  isspace c = false → rstrip (a ++ c :: b) = a ++ c :: rstrip b.
Proof.
  intros Hc. unfold rstrip.
  rewrite reverse_app, reverse_cons, <-(assoc_L (++)). cbn [app].
  rewrite lstrip_app_nonspace by done.
  by rewrite reverse_app, reverse_cons, reverse_involutive, <-(assoc_L (++)).
Qed.

End parser.


(** Full-width spaces between the tokens separate them like ordinary
    spaces. *)
Example parse_fullwidth_space :
  parse (py "<@U1>" ++ [fullwidth_space] ++ py "ls" ++ [fullwidth_space]
         ++ py "-la")
  = inr [py "ls"; py "-la"].
Proof. by vm_compute. Qed.

(** C9, as stated, fails when the second tag holds a space: the lexer
    splits inside it, and the tag [<@U 2>] is in no token. *)
Lemma parse_second_mention_split :
  parse (py "<@U1><@U 2> ls") = inr [py "<@U"; py "2>"; py "ls"]
  ∧ is_infix (py "<@U 2>") (py "<@U") = false.
Proof. split; by vm_compute. Qed.

(** C9 (amended): for every text that begins with two consecutive mention
    tags, the substitution strips the first tag only and hands on the text
    from the second tag; and when the second tag holds no shell whitespace,
    quote, backslash or full-width space, every token sequence [parse]
    returns starts with a token that begins with the second tag. *)
Theorem parse_second_mention (a b rest : str) :
  62%N ∉ a → 62%N ∉ b →
  let tag2 := py "<@" ++ b ++ py ">" in
  let text := py "<@" ++ a ++ py ">" ++ tag2 ++ rest in
  re.sub_bol mention [] text = tag2 ++ rest
  ∧ (Forall plain b → ∀ toks, parse text = inr toks →
       ∃ t ts, toks = t :: ts ∧ tag2 `prefix_of` t).
Proof.
  intros Ha Hb tag2 text.
  assert (Hsub : re.sub_bol mention [] text = tag2 ++ rest).
  { unfold re.sub_bol.
    assert (re.match_here mention text = Some (tag2 ++ rest)) as ->; [|done].
    apply match_here_mention. by exists a. }
  split; [done|]. intros Hplain toks. unfold parse. rewrite Hsub.
  assert (Htag : Forall plain tag2).
  { unfold tag2. repeat apply Forall_app_2; [|done|];
      repeat constructor; unfold plain; set_solver by (compute; lia). }
  rewrite sub_char_plain by done.
  set (r := re.sub_char _ _ rest).
  assert (Hstrip : strip (tag2 ++ r) = tag2 ++ rstrip r).
  { unfold strip, tag2. rewrite <-!(assoc_L (++)).
    change (py "<@" ++ b ++ py ">" ++ r) with (60%N :: 64%N :: b ++ 62%N :: r).
    cbn [lstrip]. change (isspace 60%N) with false. cbn iota.
    change (60%N :: 64%N :: b ++ 62%N :: r)
      with ((60%N :: 64%N :: b) ++ 62%N :: r).
    by rewrite rstrip_app_nonspace. }
  rewrite Hstrip. unfold shlex.split, shlex.fresh.
  destruct tag2 as [|c tag2'] eqn:Etag; [by destruct b|].
  apply Forall_cons in Htag as [Hc Htag].
  cbn [app shlex.tokens]. rewrite step_plain_space by done.
  rewrite tokens_plain_word by done.
  apply tokens_first_prefix; [done|done|done].
Qed.

Lemma parse_second_mention_witness :
  re.sub_bol mention [] (py "<@U1><@U2> ls") = py "<@U2> ls"
  ∧ ∃ t ts, parse (py "<@U1><@U2> ls") = inr (t :: ts)
            ∧ py "<@U2>" `prefix_of` t.
Proof.
  destruct (parse_second_mention (py "U1") (py "U2") (py " ls")) as [Hs Ht].
  - apply (bool_decide_unpack _). vm_compute. exact I.
  - apply (bool_decide_unpack _). vm_compute. exact I.
  - split; [exact Hs|].
    destruct (Ht ltac:(repeat constructor; unfold plain;
                       set_solver by (compute; lia))
                 [py "<@U2>"; py "ls"] ltac:(by vm_compute))
      as (t & ts & [= <- <-] & Hp).
    by exists (py "<@U2>"), [py "ls"].
Defined.

(** ** Tokenization failures *)

(** C2, as stated, fails on an unmatched quote: the [ValueError] of
    [shlex.split] leaves [write], and nothing has been posted. *)
Lemma write_unmatched_quote :
  let ev := event0 (py "<@U1> echo 'hi") in
  (write env0 ev startup).1 = inl (ValueError "No closing quotation")
  ∧ trace (write env0 ev startup).2 = [].
Proof. split; by vm_compute. Qed.

(** C2 (amended): for every message text on which tokenization fails,
    [parse] raises a [ValueError] that [write] does not catch: for an event
    not yet in the ledger the exception leaves [write], and the world is as
    it was before, with no command executed, nothing posted and the id not
    recorded. *)
Theorem write_parse_failure (env : Env) (item : EventBox.t) (w : World)
    (e : exn) :
  EventBox.event_id item ∉ items_set w →
  parse (Event.text (EventBox.event item)) = inl e →
  write env item w = (inl e, w) ∧ ∃ msg, e = ValueError msg.
Proof.
  intros Hid Hparse. split.
  - rewrite write_run, bool_decide_false by done.
    unfold parse_execute_post, bind, lift. by rewrite Hparse.
  - by apply tokens_raises in Hparse.
Qed.

Lemma write_parse_failure_witness :
  write env0 (event0 (py "<@U1> echo 'hi")) startup
  = (inl (ValueError "No closing quotation"), startup).
Proof.
  apply (write_parse_failure env0 (event0 (py "<@U1> echo 'hi")) startup).
  - cbn. set_solver.
  - by vm_compute.
Defined.


(** ** Further properties of the ledger and the dispatcher *)

(** Consistency looks at the ledger only. *)
Lemma consistent_ledger w w' :
  items w' = items w → items_set w' = items_set w →
  consistent w → consistent w'.
Proof. intros Hi Hs [Hset Hnd Hsz]. split; by rewrite ?Hi, ?Hs. Qed.

(** X1: [add] appends first, so its [items[0]] always exists: the only
    exception it raises is the [KeyError] of [set.remove], and the id is
    the newest entry afterwards whatever happens. *)
Theorem add_any_ledger (id : str) (w : World) :
  ((History.add id w).1 = inr tt ∨ (History.add id w).1 = inl KeyError)
  ∧ last (items (History.add id w).2) = Some id
  ∧ trace (History.add id w).2 = trace w.
Proof.
  rewrite add_run. cbn zeta. destruct (decide _) as [Hlt|Hge].
  - destruct (items w) as [|x l] eqn:El.
    { cbn in Hlt. unfold History.hist_size in Hlt. lia. }
    cbn [app]. destruct (bool_decide _); cbn [fst snd items trace].
    + split_and!; [by left|apply last_snoc|done].
    + split_and!; [by right| |done].
      change (x :: l ++ [id]) with ((x :: l) ++ [id]). apply last_snoc.
  - cbn [fst snd items trace]. split_and!; [by left|apply last_snoc|done].
Qed.

(** What [write] does to a consistent ledger. *)
Lemma write_ledger env item w :
  consistent w →
  consistent (write env item w).2
  ∧ match (write env item w).1 with
    | inr _ => EventBox.event_id item ∈ items_set (write env item w).2
    | inl _ => items (write env item w).2 = items w
               ∧ items_set (write env item w).2 = items_set w
    end.
Proof.
  intros Hw. rewrite write_run. case_bool_decide as Hid; [done|].
  pose proof (parse_execute_post_ledger env item w) as [Hi Hs].
  unfold bind. destruct (parse_execute_post env item w) as [[e|[]] w1].
  { cbn [fst snd] in *. split; [by eapply consistent_ledger|done]. }
  cbn [snd] in Hi, Hs.
  assert (Hw1 : consistent w1) by by eapply consistent_ledger.
  destruct (add_fresh (EventBox.event_id item) w1 Hw1) as (w' & -> & Hi' & _ & Hw');
    [by rewrite Hs|].
  cbn [fst snd]. split; [done|].
  destruct Hw' as [-> _ _]. rewrite Hi'. unfold last_n.
  rewrite elem_of_list_to_set, drop_app_le
    by (rewrite length_app; cbn [length]; unfold History.hist_size; lia).
  set_solver.
Qed.

(** X2: [write] keeps the ledger consistent, whether it skips, completes or
    raises: started on a consistent ledger it never runs into the
    [KeyError] of [History.add]. *)
Theorem write_keeps_consistent (env : Env) (item : EventBox.t) (w : World) :
  consistent w → consistent (write env item w).2.
Proof. intros Hw. by apply write_ledger. Qed.

Lemma write_keeps_consistent_witness :
  consistent (write env0 (event0 (py "<@U1> echo hi")) startup).2.
Proof. apply write_keeps_consistent, startup_consistent. Defined.

(** X3: Once [write] has returned for an event, on a consistent ledger, the id
    is in the ledger and delivering the event again changes nothing. *)
Theorem write_twice (env : Env) (item : EventBox.t) (w : World) :
  consistent w →
  (write env item w).1 = inr tt →
  let w1 := (write env item w).2 in
  EventBox.event_id item ∈ items_set w1
  ∧ write env item w1 = (inr tt, w1).
Proof.
  intros Hw Hret w1. pose proof (write_ledger env item w Hw) as [_ Hin].
  rewrite Hret in Hin. split; [done|].
  subst w1. by rewrite (write_run env item (write env item w).2), bool_decide_true.
Qed.

Lemma write_twice_witness :
  let w1 := (write env0 (event0 (py "<@U1> echo hi")) startup).2 in
  py "Ev01" ∈ items_set w1
  ∧ write env0 (event0 (py "<@U1> echo hi")) w1 = (inr tt, w1).
Proof.
  apply (write_twice env0 (event0 (py "<@U1> echo hi")) startup).
  - apply startup_consistent.
  - by vm_compute.
Defined.

(** X4: When [write] raises, on a consistent ledger, the ledger is as it was:
    the event can be delivered again. *)
Theorem write_raise_keeps_ledger (env : Env) (item : EventBox.t) (w : World)
    (e : exn) :
  consistent w →
  (write env item w).1 = inl e →
  items (write env item w).2 = items w
  ∧ items_set (write env item w).2 = items_set w.
Proof.
  intros Hw Hraise. pose proof (write_ledger env item w Hw) as [_ Hin].
  by rewrite Hraise in Hin.
Qed.

Lemma write_raise_keeps_ledger_witness :
  items (write env_down (event0 (py "<@U1> echo hi")) startup).2 = []
  ∧ items_set (write env_down (event0 (py "<@U1> echo hi")) startup).2 = ∅.
Proof.
  apply (write_raise_keeps_ledger env_down (event0 (py "<@U1> echo hi")) startup
           RequestException).
  - apply startup_consistent.
  - by vm_compute.
Defined.

(** ** Effects of the executor, the notifier and the dispatcher *)

Lemma execute_effects env command w :
  ∃ es, trace (execute env command w).2 = trace w ++ es
        ∧ (es = [] ∨ es = [Spawn command] ∧ allowed env command).
Proof.
  assert (trace (execute env command w).2 = trace w
          ∨ (trace (execute env command w).2 = trace w ++ [Spawn command]
             ∧ allowed env command)) as [Ht|[Ht Ha]].
  2:{ exists []. by rewrite app_nil_r; auto. }
  2:{ exists [Spawn command]. auto. }
  unfold execute, bind, lift, ret, raise, try_except, modify.
  destruct (decide _); [|by left].
  destruct (Config.get _ _ _ _ _) as [|allows] eqn:Hconf; [by left|].
  destruct command as [|tok rest]; [by left|]. cbn [index_0].
  destruct (py_in tok allows) as [|[]] eqn:Hin; [by left| |by left].
  right. split; [|by exists tok, rest, allows].
  cbn. destruct (subprocess_run env _); [done|].
  by destruct (bytes_decode env _).
Qed.

(** X5: [execute] starts at most one process, for the command it was given,
    and only when the first token is in the allowlist: the trace is as it
    was, or longer by that one [Spawn]. *)
Theorem execute_spawns_allowed (env : Env) (command : list str) (w : World) :
  trace (execute env command w).2 = trace w
  ∨ (trace (execute env command w).2 = trace w ++ [Spawn command]
     ∧ allowed env command).
Proof.
  destruct (execute_effects env command w) as (es & Ht & [->|[-> Ha]]).
  - left. by rewrite app_nil_r in Ht.
  - right. by split.
Qed.

(** X6: Without [command.allows] in the configuration, [execute] on a
    non-empty command raises the exception of [Config.get]: the lookup is
    outside the [try], so it is not turned into a [Failure], and nothing
    is spawned. *)
Theorem execute_missing_allowlist (env : Env) (command : list str)
    (w : World) :
  command ≠ [] →
  default ∅ (conf env !! "command") !! "allows" = None →
  execute env command w
  = (inl (PyException (py "Not found command.allows in config.")), w).
Proof.
  intros Hne Hconf. destruct command as [|tok rest]; [done|].
  unfold execute, bind, lift, ret, Config.get. cbn [length].
  by rewrite Hconf.
Qed.

Lemma execute_missing_allowlist_witness :
  execute env_no_command [py "echo"; py "hi"] startup
  = (inl (PyException (py "Not found command.allows in config.")), startup).
Proof.
  apply execute_missing_allowlist; [done|]. by vm_compute.
Defined.

(** X7: Every result [execute] returns has exactly one of its two flags set. *)
Theorem execute_result_flags (env : Env) (command : list str) (w w' : World)
    (r : Result) :
  execute env command w = (inr r, w') →
  is_failed r = negb (is_success r).
Proof.
  unfold execute, bind, lift, ret, raise, try_except, modify.
  destruct (decide _); [|done].
  destruct (Config.get _ _ _ _ _); [done|].
  destruct (index_0 command); [done|].
  destruct (py_in _ _) as [|[]]; [done| |by intros [= <- _]].
  cbn. destruct (subprocess_run env _); [by intros [= <- _]|].
  by destruct (bytes_decode env _); intros [= <- _].
Qed.

Lemma execute_result_flags_witness :
  is_failed (Result.failed (py "Error: rm is not allowed")) = negb false.
Proof.
  apply (execute_result_flags env0 [py "rm"] startup startup). by vm_compute.
Defined.

Lemma post_cases env result w :
  (trace (post env result w).2 = trace w
   ∧ ∃ e, (post env result w).1 = inl e)
  ∨ (∃ url data,
       trace (post env result w).2 = trace w ++ [HttpPost url data]
       ∧ (post env result w).1
         = match requests_post env url data with
           | Some e => inl e
           | None => inr tt
           end).
Proof.
  unfold post, bind, lift, ret, raise, modify.
  destruct (Config.get _ "slack" "webhook" _ _) as [|url]; [left; eauto|].
  destruct (Config.get _ "slack" "channel" _ _) as [|channel]; [left; eauto|].
  destruct (startswith channel _) as [|has_hash]; [left; eauto|].
  destruct (if negb has_hash then _ else _) as [|channel']; [left; eauto|].
  destruct (Config.get _ "slack" "username" _ _) as [|username]; [left; eauto|].
  destruct (Config.get _ "slack" "icon" _ _) as [|icon]; [left; eauto|].
  set (data0 := ({[ "username" := _; "channel" := _; "color" := _;
                    "fields" := _ ]} : gmap string jvalue)).
  clearbody data0.
  destruct icon as [|s|l]; cbn [startswith].
  - right. exists url, data0. cbn.
    destruct (requests_post env url data0); cbn; split; reflexivity.
  - destruct (bool_decide _).
    + right. exists url, (<["icon_emoji" := JStr s]> data0). cbn.
      destruct (requests_post env url _); cbn; split; reflexivity.
    + destruct (bool_decide _); right.
      * exists url, (<["icon_url" := JStr s]> data0). cbn.
        destruct (requests_post env url _); cbn; split; reflexivity.
      * exists url, data0. cbn.
        destruct (requests_post env url _); cbn; split; reflexivity.
  - left. eauto.
Qed.

Lemma post_effects env result w :
  ∃ es, trace (post env result w).2 = trace w ++ es
        ∧ (es = [] ∨ ∃ url data, es = [HttpPost url data]).
Proof.
  destruct (post_cases env result w) as [[Ht _]|(url & data & Ht & _)].
  - exists []. split; [by rewrite app_nil_r|by left].
  - exists [HttpPost url data]. eauto.
Qed.

(** X8: [post] sends at most one request. Either it raises before sending
    anything, or it sends exactly one request and then returns or raises
    as [requests.post] did: a failed request is not caught. *)
Theorem post_outcome (env : Env) (result : Result) (w : World) :
  (trace (post env result w).2 = trace w
   ∧ ∃ e, (post env result w).1 = inl e)
  ∨ (∃ url data,
       trace (post env result w).2 = trace w ++ [HttpPost url data]
       ∧ (post env result w).1
         = match requests_post env url data with
           | Some e => inl e
           | None => inr tt
           end).
Proof.
  destruct (post_cases env result w) as [[Ht He]|(url & data & Ht & Hr)].
  - left. by split.
  - right. by exists url, data.
Qed.

(** X9: A required key of the [slack] table that is missing makes [post] raise
    the exception of [Config.get] before any request is sent: [webhook] is
    looked up first, then [channel], then [username]. *)
Theorem post_missing_key (env : Env) (result : Result) (w : World) :
  let slack := default ∅ (conf env !! "slack") in
  (slack !! "webhook" = None →
   post env result w
   = (inl (PyException (py "Not found slack.webhook in config.")), w))
  ∧ (∀ url, slack !! "webhook" = Some url → url ≠ VNone →
       slack !! "channel" = None →
       post env result w
       = (inl (PyException (py "Not found slack.channel in config.")), w))
  ∧ (∀ url channel, slack !! "webhook" = Some url → url ≠ VNone →
       slack !! "channel" = Some (VStr channel) →
       slack !! "username" = None →
       post env result w
       = (inl (PyException (py "Not found slack.username in config.")), w)).
Proof.
  intros slack. subst slack. split_and!.
  - intros H1. unfold post, bind, lift, Config.get. by rewrite H1.
  - intros url H1 Hurl H2. unfold post, bind, lift, Config.get.
    rewrite H1, H2. cbn [default from_option id]. by destruct url.
  - intros url channel H1 Hurl H2 H3. unfold post, bind, lift, Config.get.
    rewrite H1, H2, H3. cbn [default from_option id startswith].
    destruct url; [done|by case_bool_decide..].
Qed.

Lemma post_missing_key_witness :
  post env_no_slack (Result.success (py "hi")) startup
  = (inl (PyException (py "Not found slack.webhook in config.")), startup).
Proof.
  apply (post_missing_key env_no_slack). by vm_compute.
Defined.

(** ** Further properties of the parser *)

(** A character that one turn of the lexer leaves in the token, or as the
    pending escape character, was there before or is the character read. *)
Lemma step_chars lx x c :
  let lx' := (shlex.step lx x).1 in
  c ∈ shlex.token lx' ∨ shlex.state lx' = shlex.in_escape c
    ∨ shlex.escapedstate lx' = shlex.in_escape c →
  c = x ∨ c ∈ shlex.token lx ∨ shlex.state lx = shlex.in_escape c
    ∨ shlex.escapedstate lx = shlex.in_escape c.
Proof.
  destruct lx as [st esc q tok]. cbn zeta.
  destruct st as [| |qc|ec]; cbn [shlex.step].
  - destruct (bool_decide (x ∈ shlex.whitespace));
      [|destruct (bool_decide (x ∈ shlex.escape));
        [|destruct (shlex.wordchar x);
          [|destruct (bool_decide (x ∈ shlex.quotes))]]];
      cbn [fst shlex.token shlex.state shlex.escapedstate];
      rewrite ?list_elem_of_singleton; naive_solver.
  - destruct (bool_decide (x ∈ shlex.whitespace));
      [|destruct (bool_decide (x ∈ shlex.quotes));
        [|destruct (bool_decide (x ∈ shlex.escape))]];
      cbn [fst shlex.token shlex.state shlex.escapedstate];
      rewrite ?elem_of_app, ?list_elem_of_singleton; naive_solver.
  - destruct (bool_decide (x = qc)); [|destruct (_ && _)];
      cbn [fst shlex.token shlex.state shlex.escapedstate];
      rewrite ?elem_of_app, ?list_elem_of_singleton; naive_solver.
  - cbn [fst shlex.token shlex.state shlex.escapedstate].
    destruct esc; [| |destruct (_ && _)|];
      rewrite ?elem_of_app, ?list_elem_of_singleton; naive_solver.
Qed.

(** Every character of a token was read from the input, was already in
    the token being built, or is a pending escape character. *)
Lemma tokens_chars input lx toks t c :
  shlex.tokens lx input = inr toks → t ∈ toks → c ∈ t →
  c ∈ input ∨ c ∈ shlex.token lx ∨ shlex.state lx = shlex.in_escape c
    ∨ shlex.escapedstate lx = shlex.in_escape c.
Proof.
  revert lx toks. induction input as [|x input IH]; intros lx toks;
    cbn [shlex.tokens].
  - unfold shlex.result.
    destruct (shlex.state lx); intros [= <-] || intros [=];
      destruct (_ && _); set_solver.
  - pose proof (step_chars lx x c) as Hstep. cbn zeta in Hstep.
    destruct (shlex.step lx x) as [lx' []]; cbn [fst] in Hstep.
    + unfold shlex.result. destruct (_ && _); [intros [= <-]; set_solver|].
      destruct (shlex.tokens _ input) as [|ts] eqn:Hts; [done|].
      intros [= <-] [->|Ht]%elem_of_cons Hc.
      * destruct Hstep as [->|?]; [by left|set_solver|set_solver].
      * destruct (IH _ _ Hts Ht Hc) as [?|[?|[Hs|?]]]; [set_solver|set_solver| |done].
        cbn in Hs. destruct Hstep as [->|?]; [by right; left|set_solver|set_solver].
    + intros Hts Ht Hc.
      destruct (IH _ _ Hts Ht Hc) as [?|Hp]; [set_solver|].
      destruct (Hstep Hp) as [->|?]; set_solver.
Qed.

Lemma sub_char_no_fullwidth text :
  fullwidth_space ∉ re.sub_char fullwidth_space (py " ") text.
Proof.
  induction text as [|c text IH]; cbn [re.sub_char]; [set_solver|].
  destruct (decide _); [|set_solver].
  change (py " " ++ ?l) with (32%N :: l). set_solver.
Qed.

(** [strip] only removes characters. *)
Lemma strip_subseteq s c : c ∈ strip s → c ∈ s.
Proof.
  destruct (strip_spec s) as (l & r & Hs & _). rewrite Hs at 2. set_solver.
Qed.

(** X10: No token that [parse] returns holds a full-width space: the
    replacement is made on the whole text, inside quotes too, before the
    text is split. *)
Theorem parse_no_fullwidth (text : str) (toks : list str) (t : str) :
  parse text = inr toks → t ∈ toks → fullwidth_space ∉ t.
Proof.
  unfold parse, shlex.split. intros Hp Ht Hc.
  destruct (tokens_chars _ _ _ _ _ Hp Ht Hc) as [Hin|[Hin|[Hin|Hin]]];
    [|set_solver|done|done].
  by apply strip_subseteq, sub_char_no_fullwidth in Hin.
Qed.

Lemma parse_no_fullwidth_witness :
  parse (py "say 'a" ++ [fullwidth_space] ++ py "b'") = inr [py "say"; py "a b"]
  ∧ fullwidth_space ∉ py "a b".
Proof.
  assert (Hp : parse (py "say 'a" ++ [fullwidth_space] ++ py "b'")
               = inr [py "say"; py "a b"]) by by vm_compute.
  split; [done|].
  apply (parse_no_fullwidth _ _ (py "a b") Hp). set_solver.
Defined.

(** Once inside a token the lexer returns at least one token, unless it
    raises. *)
Lemma tokens_nonempty input lx toks :
  will_emit lx → shlex.tokens lx input = inr toks → toks ≠ [].
Proof.
  revert lx toks. induction input as [|x input IH];
    intros [st esc q tok] toks; unfold will_emit;
    cbn [shlex.tokens shlex.state shlex.token shlex.quoted shlex.escapedstate].
  - destruct st; [done| |done..]. intros Hw [= <-].
    unfold shlex.result. cbn. case_bool_decide; destruct q; naive_solver.
  - destruct st as [| |qc|ec]; [done| | |]; intros Hw; cbn [shlex.step].
    + destruct (bool_decide (x ∈ shlex.whitespace)).
      { assert (shlex.emits (shlex.Lexer shlex.in_word esc q tok) = true) as ->.
        { unfold shlex.emits. cbn. case_bool_decide; destruct q; naive_solver. }
        unfold shlex.result. cbn.
        assert (negb q && bool_decide (tok = []) = false) as ->.
        { case_bool_decide; destruct q; naive_solver. }
        by destruct (shlex.tokens _ input); intros [= <-]. }
      destruct (bool_decide (x ∈ shlex.quotes)); [by apply IH|].
      destruct (bool_decide (x ∈ shlex.escape)); [by apply IH|].
      apply IH. unfold will_emit. cbn. left. by destruct tok.
    + destruct (bool_decide (x = qc)); [apply IH; unfold will_emit; cbn; by right|].
      destruct (_ && _); by apply IH.
    + apply IH. unfold will_emit. cbn.
      destruct esc; [done| |done|done]. left.
      by destruct tok.
Qed.

(** X11: [parse] returns the empty list exactly when nothing is left of the
    text once the mention tag and the surrounding whitespace are gone. *)
Theorem parse_empty_iff_blank (text : str) :
  parse text = inr [] ↔ prepared text = [].
Proof.
  unfold parse. fold (prepared text). split; [|by intros ->].
  destruct (strip_spec (re.sub_char fullwidth_space (py " ")
                          (re.sub_bol mention [] text)))
    as (l & r & _ & _ & _ & Hhead & _).
  fold (prepared text) in Hhead.
  destruct (prepared text) as [|c s]; [done|]. intros Hp. exfalso.
  specialize (Hhead c eq_refl).
  unfold shlex.split in Hp. cbn [shlex.tokens] in Hp.
  assert (Hws : bool_decide (c ∈ shlex.whitespace) = false).
  { apply bool_decide_eq_false. intros Hin. unfold shlex.whitespace in Hin.
    repeat (apply elem_of_cons in Hin as [->|Hin]; [done|]). set_solver. }
  unfold shlex.fresh in Hp. cbn [shlex.step] in Hp. rewrite Hws in Hp.
  destruct (bool_decide (c ∈ shlex.escape));
    [by eapply tokens_nonempty in Hp|].
  destruct (shlex.wordchar c);
    [eapply tokens_nonempty in Hp; [done|by left]|].
  destruct (bool_decide (c ∈ shlex.quotes));
    (eapply tokens_nonempty in Hp; [done|]); [done|by left].
Qed.

(** X12: A message that is blank once the mention is gone makes [write] raise
    the [AssertionError] of [execute]: nothing is posted and the id is not
    recorded. *)
Theorem write_blank_message (env : Env) (item : EventBox.t) (w : World) :
  EventBox.event_id item ∉ items_set w →
  prepared (Event.text (EventBox.event item)) = [] →
  write env item w = (inl AssertionError, w).
Proof.
  intros Hid Hblank. rewrite write_run, bool_decide_false by done.
  unfold parse_execute_post, bind, lift, parse.
  fold (prepared (Event.text (EventBox.event item))). by rewrite Hblank.
Qed.

Lemma write_blank_message_witness :
  write env0 (event0 (py "<@U1>  ")) startup = (inl AssertionError, startup).
Proof.
  apply (write_blank_message env0 (event0 (py "<@U1>  ")) startup).
  - cbn. set_solver.
  - by vm_compute.
Defined.

Lemma parse_empty_iff_blank_witness : parse (py "<@U1> ") = inr [].
Proof. apply (proj2 (parse_empty_iff_blank (py "<@U1> "))). by vm_compute. Defined.

(** ** [Result.__repr__] *)

(** X13: The text of a result tells a success from a failure and gives back
    its data: two results with the same text have the same [is_success]
    flag and the same data. *)
Theorem Result_repr_inj (r1 r2 : Result) :
  Result_repr r1 = Result_repr r2 →
  is_success r1 = is_success r2 ∧ data r1 = data r2.
Proof.
  unfold Result_repr. destruct (is_success r1), (is_success r2); intros Heq.
  - split; [done|]. apply app_inv_head in Heq. by apply app_inv_tail in Heq.
  - discriminate Heq.
  - discriminate Heq.
  - split; [done|]. apply app_inv_head in Heq. by apply app_inv_tail in Heq.
Qed.

Lemma Result_repr_inj_witness :
  is_success (Result.failed (py "x")) = false
  ∧ data (Result.failed (py "x")) = py "x".
Proof.
  apply (Result_repr_inj (Result.failed (py "x"))
           {| is_success := false; is_failed := false; data := py "x" |}).
  reflexivity.
Defined.

(** ** The endpoint *)

Lemma add_trace id w : trace (History.add id w).2 = trace w.
Proof.
  rewrite add_run. cbn zeta. destruct (decide _); [|done].
  destruct (items w ++ [id]); [done|]. by destruct (bool_decide _).
Qed.

(** The effects of one [write]: at most a [Spawn] of the parsed and
    allowed command, then at most one [HttpPost]. *)
Lemma write_effects env item w :
  ∃ es, trace (write env item w).2 = trace w ++ es
    ∧ (∀ c, Spawn c ∈ es →
         allowed env c ∧ parse (Event.text (EventBox.event item)) = inr c)
    ∧ length (filter (λ e, is_spawn e = true) es) ≤ 1
    ∧ length (filter (λ e, is_post e = true) es) ≤ 1
    ∧ (EventBox.event_id item ∈ items_set w → es = []).
Proof.
  rewrite write_run. case_bool_decide as Hid.
  { exists []. rewrite app_nil_r. split_and!; [done|set_solver|compute; lia..|done]. }
  unfold parse_execute_post, bind, lift.
  destruct (parse _) as [e|command] eqn:Hparse.
  { exists []. rewrite app_nil_r. split_and!; [done|set_solver|compute; lia..|done]. }
  destruct (execute_effects env command w) as (es1 & Ht1 & Hes1).
  destruct (execute env command w) as [[e|result] w1]; cbn [snd] in Ht1.
  { exists es1. split_and!; [exact Ht1| | | |by intros ?].
    - destruct Hes1 as [->|[-> Ha]]; [set_solver|].
      by intros c [= ->]%list_elem_of_singleton.
    - destruct Hes1 as [->|[-> _]]; compute; lia.
    - destruct Hes1 as [->|[-> _]]; compute; lia. }
  destruct (post_effects env result w1) as (es2 & Ht2 & Hes2).
  exists (es1 ++ es2). split_and!; [|..|by intros ?].
  - destruct (post env result w1) as [[e|[]] w2]; cbn [snd] in Ht2;
      rewrite ?add_trace; cbn [snd]; by rewrite Ht2, Ht1, <-(assoc_L (++)).
  - intros c Hc. destruct Hes1 as [->|[-> Ha]], Hes2 as [->|(url & data & ->)];
      set_solver.
  - destruct Hes1 as [->|[-> _]], Hes2 as [->|(url & data & ->)]; compute; lia.
  - destruct Hes1 as [->|[-> _]], Hes2 as [->|(url & data & ->)]; compute; lia.
Qed.

(** X14: For one event [write] starts at most one process and sends at most
    one request; the process is the command parsed from the text, whose
    first token is allowed; and for an event already in the ledger it does
    neither. *)
Theorem write_at_most_once (env : Env) (item : EventBox.t) (w : World) :
  ∃ es, trace (write env item w).2 = trace w ++ es
    ∧ length (filter (λ e, is_spawn e = true) es) ≤ 1
    ∧ length (filter (λ e, is_post e = true) es) ≤ 1
    ∧ (∀ c, Spawn c ∈ es →
         allowed env c ∧ parse (Event.text (EventBox.event item)) = inr c)
    ∧ (EventBox.event_id item ∈ items_set w → es = []).
Proof.
  destruct (write_effects env item w) as (es & Ht & Hs & Hn1 & Hn2 & Hskip).
  exists es. by split_and!.
Qed.

Lemma write_at_most_once_witness :
  ∃ es, trace (write env0 (event0 (py "<@U1> echo hi")) startup).2 = es
        ∧ length (filter (λ e, is_post e = true) es) ≤ 1.
Proof.
  destruct (write_at_most_once env0 (event0 (py "<@U1> echo hi")) startup)
    as (es & Ht & _ & Hn & _).
  exists es. by split.
Defined.

Lemma request_world env item w :
  (request env item w).2
  = match item with
    | IsEventBox e => (write env e w).2
    | _ => w
    end.
Proof.
  destruct item as [c|e|j]; [done| |by destruct j].
  unfold request. cbn [main app run_tasks]. unfold bind, ret.
  by destruct (write env e w) as [[?|[]] ?].
Qed.

(** X16: Every process the server starts, over any sequence of requests that
    do not overlap, runs a command whose first token is in the
    allowlist. *)
Theorem serve_spawns_allowed (env : Env) (reqs : list payload) (w : World)
    (c : list str) :
  Spawn c ∈ trace (serve env reqs w) →
  Spawn c ∈ trace w ∨ allowed env c.
Proof.
  revert w. induction reqs as [|item reqs IH]; intros w; [by left|].
  unfold serve. cbn [foldl]. fold (serve env reqs (request env item w).2).
  intros [Hin|Ha]%IH; [|by right].
  rewrite request_world in Hin. destruct item as [?|e|?]; [by left| |by left].
  destruct (write_effects env e w) as (es & Ht & Hs & _).
  rewrite Ht in Hin. apply elem_of_app in Hin as [Hin|Hin]; [by left|].
  right. by apply Hs.
Qed.

Lemma serve_spawns_allowed_witness :
  allowed env0 [py "echo"; py "hi"].
Proof.
  destruct (serve_spawns_allowed env0
              [IsEventBox (event0 (py "<@U1> echo hi"))] startup
              [py "echo"; py "hi"]) as [Hin|Ha].
  - apply (list_elem_of_lookup_2 _ 0). by vm_compute.
  - cbn in Hin. set_solver.
  - exact Ha.
Defined.

(** X17: The server sends at most one request to the webhook per event
    envelope it receives, and none for any other payload. *)
Theorem serve_posts_bounded (env : Env) (reqs : list payload) (w : World) :
  length (filter (λ e, is_post e = true) (trace (serve env reqs w)))
  ≤ length (filter (λ e, is_post e = true) (trace w))
    + length (filter (λ p, is_event p = true) reqs).
Proof.
  revert w. induction reqs as [|item reqs IH]; intros w; [cbn; lia|].
  unfold serve. cbn [foldl]. fold (serve env reqs (request env item w).2).
  etrans; [apply IH|]. rewrite request_world.
  destruct item as [?|e|?]; rewrite ?filter_cons_False by done; [lia| |lia].
  rewrite filter_cons_True by done. cbn [length].
  destruct (write_effects env e w) as (es & -> & _ & _ & Hn & _).
  rewrite filter_app, length_app. lia.
Qed.

(** X18: Serving requests one after the other keeps the ledger consistent. *)
Theorem serve_consistent (env : Env) (reqs : list payload) (w : World) :
  consistent w → consistent (serve env reqs w).
Proof.
  revert w. induction reqs as [|item reqs IH]; intros w Hw; [done|].
  unfold serve. cbn [foldl]. fold (serve env reqs (request env item w).2).
  apply IH. rewrite request_world. destruct item as [?|e|?]; [done| |done].
  by apply write_ledger.
Qed.

Lemma serve_consistent_witness :
  consistent (serve env0 [IsEventBox (event0 (py "<@U1> echo hi"));
                          IsEventBox (event0 (py "<@U1> echo hi"))] startup).
Proof. apply serve_consistent, startup_consistent. Defined.
